(** * streamdown-svelte: URL hardening, block-math merging, incomplete links

    A shallow embedding of [lib/harden-markdown.ts] and of
    [lib/parse-blocks.ts], with the properties the specification states
    about them.  The link rule of the incomplete-markdown repairer, whose
    source file is not available, is modelled from the specification and
    the tests.

    JavaScript strings are sequences of UTF-16 code units; they are modelled
    as lists of [N].  The regular expressions of the sources are values of a
    small regex type, run by a backtracking matcher. *)

From Stdlib Require Import List NArith Bool Ascii String Lia Arith DecimalString.
From Stdlib Require DecimalNat DecimalFacts.
Import ListNotations.

Set Implicit Arguments.

(* ================================================================== *)
(** ** JavaScript strings *)
(* ================================================================== *)

Module JsString.

Definition code_unit := N.
Definition jsstring := list code_unit.

(** [js "abc"] is the JavaScript string literal ['abc'] (ASCII text). *)
Definition js (s : string) : jsstring :=
  map N_of_ascii (list_ascii_of_string s).

Fixpoint str_eqb (a b : jsstring) : bool :=
  match a, b with
  | [], [] => true
  | x :: a', y :: b' => N.eqb x y && str_eqb a' b'
  | _, _ => false
  end.

(** [s.startsWith(p)] *)
Fixpoint startsWith (s p : jsstring) {struct p} : bool :=
  match p, s with
  | [], _ => true
  | y :: p', x :: s' => N.eqb x y && startsWith s' p'
  | _ :: _, [] => false
  end.

(** [s.endsWith(p)] *)
Definition endsWith (s p : jsstring) : bool :=
  startsWith (rev s) (rev p).

(** [arr.includes(x)] on an array of strings. *)
Definition includes (arr : list jsstring) (x : jsstring) : bool :=
  existsb (str_eqb x) arr.

(** ECMAScript WhiteSpace and LineTerminator code units: the class [\s] of
    regular expressions and the characters removed by [trim]. *)
Definition isWhiteSpace (c : code_unit) : bool :=
  ((9 <=? c) && (c <=? 13) || (c =? 32) || (c =? 160) || (c =? 5760)
   || ((8192 <=? c) && (c <=? 8202)) || (c =? 8232) || (c =? 8233)
   || (c =? 8239) || (c =? 8287) || (c =? 12288) || (c =? 65279))%N.

Fixpoint dropWhile (p : code_unit -> bool) (s : jsstring) : jsstring :=
  match s with
  | [] => []
  | c :: s' => if p c then dropWhile p s' else s
  end.

Definition trimStart (s : jsstring) : jsstring := dropWhile isWhiteSpace s.
Definition trimEnd (s : jsstring) : jsstring :=
  rev (dropWhile isWhiteSpace (rev s)).
Definition trim (s : jsstring) : jsstring := trimEnd (trimStart s).

(** [String.prototype.toLowerCase] on the ASCII letters.  It is applied
    to the protocol of a parsed URL only, which consists of ASCII scheme
    characters. *)
Definition toLowerCase_unit (c : code_unit) : code_unit :=
  if ((65 <=? c) && (c <=? 90))%N then (c + 32)%N else c.
Definition toLowerCase (s : jsstring) : jsstring := map toLowerCase_unit s.

End JsString.
Import JsString.

(* ================================================================== *)
(** ** Regular expressions *)
(* ================================================================== *)

(** The fragment of ECMAScript regular expressions the sources use: literal
    text, character classes, sequence, alternation, the star of a class and
    the end-of-input assertion.  [RegExp.prototype.test] only reports
    whether some match exists, so the matcher explores every alternative
    the back-tracking engine would; greedy and lazy quantifiers agree. *)
Module Regex.

Inductive regex : Type :=
| Eps : regex
| Class : (code_unit -> bool) -> regex
| Lit : jsstring -> regex
| Seq : regex -> regex -> regex
| Alt : regex -> regex -> regex
| StarClass : (code_unit -> bool) -> regex
| EndOfInput : regex.

(** Canonicalize of the [i] flag (without [u]): ASCII letters are compared
    by their upper-case form, and no code unit above 127 is ever equal to
    an ASCII one.  Every literal of the sources is ASCII. *)
Definition canonicalize (c : code_unit) : code_unit :=
  if ((97 <=? c) && (c <=? 122))%N then (c - 32)%N else c.

Definition unit_eqb (ignoreCase : bool) (x y : code_unit) : bool :=
  if ignoreCase then N.eqb (canonicalize x) (canonicalize y) else N.eqb x y.

Fixpoint matchLit (ignoreCase : bool) (p s : jsstring) {struct p}
  : option jsstring :=
  match p, s with
  | [], _ => Some s
  | y :: p', x :: s' =>
      if unit_eqb ignoreCase x y then matchLit ignoreCase p' s' else None
  | _ :: _, [] => None
  end.

Fixpoint matchStar (p : code_unit -> bool) (s : jsstring)
         (k : jsstring -> bool) : bool :=
  k s || match s with
         | c :: s' => p c && matchStar p s' k
         | [] => false
         end.

(** [matchAt i r s k]: [r] matches a prefix of [s] such that the
    continuation [k] accepts what is left. *)
Fixpoint matchAt (ignoreCase : bool) (r : regex) (s : jsstring)
         (k : jsstring -> bool) : bool :=
  match r with
  | Eps => k s
  | Class p => match s with c :: s' => p c && k s' | [] => false end
  | Lit p => match matchLit ignoreCase p s with Some s' => k s' | None => false end
  | Seq r1 r2 => matchAt ignoreCase r1 s (fun s' => matchAt ignoreCase r2 s' k)
  | Alt r1 r2 => matchAt ignoreCase r1 s k || matchAt ignoreCase r2 s k
  | StarClass p => matchStar p s k
  | EndOfInput => match s with [] => k [] | _ :: _ => false end
  end.

Definition accept (_ : jsstring) : bool := true.

(** [/^r/.test(s)] *)
Definition testAnchored (ignoreCase : bool) (r : regex) (s : jsstring) : bool :=
  matchAt ignoreCase r s accept.

(** [/r/.test(s)]: a match starting at some index of [s]. *)
Fixpoint test (ignoreCase : bool) (r : regex) (s : jsstring) : bool :=
  matchAt ignoreCase r s accept
  || match s with
     | _ :: s' => test ignoreCase r s'
     | [] => false
     end.

Fixpoint alternatives (rs : list regex) : regex :=
  match rs with
  | [] => Class (fun _ => false)
  | [r] => r
  | r :: rs' => Alt r (alternatives rs')
  end.

(** Declarative reading: [Matches i r s s'] when [r] matches the prefix of
    [s] that leaves [s']. *)
Inductive LitEq (ignoreCase : bool) : jsstring -> jsstring -> Prop :=
| LitEq_nil : LitEq ignoreCase [] []
| LitEq_cons x y w p :
    unit_eqb ignoreCase x y = true -> LitEq ignoreCase w p ->
    LitEq ignoreCase (x :: w) (y :: p).

Inductive Matches (ignoreCase : bool) : regex -> jsstring -> jsstring -> Prop :=
| M_Eps s : Matches ignoreCase Eps s s
| M_Class p c s : p c = true -> Matches ignoreCase (Class p) (c :: s) s
| M_Lit p w s : LitEq ignoreCase w p -> Matches ignoreCase (Lit p) (w ++ s) s
| M_Seq r1 r2 s s' s'' :
    Matches ignoreCase r1 s s' -> Matches ignoreCase r2 s' s'' ->
    Matches ignoreCase (Seq r1 r2) s s''
| M_AltL r1 r2 s s' : Matches ignoreCase r1 s s' -> Matches ignoreCase (Alt r1 r2) s s'
| M_AltR r1 r2 s s' : Matches ignoreCase r2 s s' -> Matches ignoreCase (Alt r1 r2) s s'
| M_Star p w s : Forall (fun c => p c = true) w ->
                 Matches ignoreCase (StarClass p) (w ++ s) s
| M_End : Matches ignoreCase EndOfInput [] [].

End Regex.
Import Regex.

(* ================================================================== *)
(** ** lib/harden-markdown.ts *)
(* ================================================================== *)

(** The fields of a platform [URL] object that the transformer reads. *)
Record URL : Type := mkURL {
  href : jsstring;
  origin : jsstring;
  protocol : jsstring;
  pathname : jsstring;
  search : jsstring;
  hash : jsstring
}.

(** A value of TypeScript type [unknown], as far as the transformer can
    tell values apart: by [typeof], by truthiness and by [===] with a
    string.  A number is falsy when it is zero or NaN. *)
Inductive js_value : Type :=
| JUndefined
| JNull
| JBoolean (b : bool)
| JNumber (zeroOrNaN : bool)
| JString (s : jsstring)
| JObject.

Definition truthy (v : js_value) : bool :=
  match v with
  | JUndefined | JNull => false
  | JBoolean b => b
  | JNumber zeroOrNaN => negb zeroOrNaN
  | JString s => match s with [] => false | _ :: _ => true end
  | JObject => true
  end.

(** [v === s] for a string [s] *)
Definition strictEqualsString (v : js_value) (s : jsstring) : bool :=
  match v with
  | JString t => str_eqb t s
  | _ => false
  end.

Definition incompleteLinkSentinel : jsstring := js "streamdown:incomplete-link".

Module Harden.

(** The [dangerous] array of [isDangerousProtocol], in source order. *)
Definition dangerous : list jsstring :=
  map js
    [ "javascript:"; "data:"; "vbscript:"; "about:"; "chrome:";
      "chrome-extension:"; "moz-extension:"; "file:"; "blob:"; "filesystem:";
      "jar:"; "ms-appx:"; "ms-appx-web:"; "res:"; "resource:"; "app:";
      "intent:"; "android-app:"; "mailto:"; "tel:"; "sms:"; "ftp:"; "ws:";
      "wss:"; "jscript:"; "ecmascript:"; "livescript:" ]%string.

Definition isDangerousProtocol (protocol : jsstring) : bool :=
  includes dangerous (toLowerCase protocol).

(** [/[\x00-\x08\x0B\x0C\x0E-\x1F\x7F]/] *)
Definition controlClass (c : code_unit) : bool :=
  ((c <=? 8) || (c =? 11) || (c =? 12) || ((14 <=? c) && (c <=? 31))
   || (c =? 127))%N.
Definition controlRegex : regex := Class controlClass.

(** [/[\u200B-\u200D\uFEFF]/] *)
Definition zeroWidthClass (c : code_unit) : bool :=
  (((8203 <=? c) && (c <=? 8205)) || (c =? 65279))%N.
Definition zeroWidthRegex : regex := Class zeroWidthClass.

(** The alternatives of the third regular expression, in source order. *)
Definition protocolTokens : list jsstring :=
  map js
    [ "javascript"; "data"; "vbscript"; "about"; "chrome";
      "chrome-extension"; "moz-extension"; "file"; "blob"; "filesystem";
      "jar"; "ms-appx"; "ms-appx-web"; "res"; "resource"; "app";
      "intent"; "android-app"; "mailto"; "tel"; "sms"; "ftp"; "ws";
      "wss"; "jscript"; "ecmascript"; "livescript" ]%string.

(** The characters of the literals of the third regular expression:
    [a]-[z], the hyphen and the colon. *)
Definition tokenUnit (y : code_unit) : bool :=
  (((97 <=? y) && (y <=? 122)) || (y =? 45) || (y =? 58))%N.

(** [/(?:javascript|data|...|livescript)\s*:/i] *)
Definition malformedProtocolRegex : regex :=
  Seq (alternatives (map Lit protocolTokens))
      (Seq (StarClass isWhiteSpace) (Lit (js ":"))).

Definition hasSuspiciousPatterns (url : jsstring) : bool :=
  if test false controlRegex url then true
  else if test false zeroWidthRegex url then true
  else if test true malformedProtocolRegex url then true
  else false.

Definition isPathRelativeUrl (url : js_value) : bool :=
  match url with
  | JString s => startsWith s (js "/")
  | _ => false
  end.

Section Transformer.

(** The platform constructor: [newURL s None] is [new URL(s)] and
    [newURL s (Some b)] is [new URL(s, b)]; [None] when it throws. *)
Variable newURL : jsstring -> option jsstring -> option URL.

(** The arguments of [createHardenedUrlTransformer]. *)
Variable allowedPrefixes : list jsstring.
Variable defaultOrigin : option jsstring.

Definition parseUrl (url : js_value) : option URL :=
  match url with
  | JString s =>
      match newURL s None with
      | Some urlObject => Some urlObject
      | None =>
          match defaultOrigin with
          | Some (c :: o) => newURL s (Some (c :: o))
          | Some [] | None => None
          end
      end
  | _ => None
  end.

(** The callback of [allowedPrefixes.some(...)]. *)
Definition prefixMatches (parsedUrl : URL) (prefix : jsstring) : bool :=
  match parseUrl (JString prefix) with
  | None => false
  | Some parsedPrefix =>
      if negb (str_eqb (origin parsedPrefix) (origin parsedUrl)) then false
      else startsWith (href parsedUrl) (href parsedPrefix)
  end.

(** What an accepted URL is returned as. *)
Definition output (inputWasRelative : bool) (parsedUrl : URL) : jsstring :=
  if inputWasRelative
  then pathname parsedUrl ++ search parsedUrl ++ hash parsedUrl
  else href parsedUrl.

Definition transformUrl (url : js_value) : option jsstring :=
  if negb (truthy url) then None
  else if strictEqualsString url incompleteLinkSentinel
  then Some incompleteLinkSentinel
  else
    match url with
    | JString s =>
        if hasSuspiciousPatterns s then None
        else
          match parseUrl url with
          | None => None
          | Some parsedUrl =>
              if isDangerousProtocol (protocol parsedUrl) then None
              else
                let inputWasRelative := isPathRelativeUrl url in
                if existsb (prefixMatches parsedUrl) allowedPrefixes
                then Some (output inputWasRelative parsedUrl)
                else if includes allowedPrefixes (js "*")
                then
                  if negb (str_eqb (protocol parsedUrl) (js "https:"))
                     && negb (str_eqb (protocol parsedUrl) (js "http:"))
                  then None
                  else Some (output inputWasRelative parsedUrl)
                else None
          end
    | _ => None
    end.

End Transformer.

Definition createHardenedUrlTransformer
  (newURL : jsstring -> option jsstring -> option URL)
  (allowedPrefixes : list jsstring) (defaultOrigin : option jsstring)
  : js_value -> option jsstring :=
  transformUrl newURL allowedPrefixes defaultOrigin.

End Harden.

(* ================================================================== *)
(** ** A model of the platform URL constructor *)
(* ================================================================== *)

(** [new URL(input, base)] is not part of the repository: the transformer
    above takes it as a parameter.  To run the transformer on the concrete
    URLs of the specification, this module follows the parsing algorithm of
    the URL Standard: input clean-up, scheme, authority (credentials, host,
    port), path with dot-segment removal, query, fragment, percent-encoding
    and the serializer.  Outside the model: IPv6 literals and non-ASCII
    (IDNA) domains, reported as failures, the validation of [xn--] labels,
    and the Windows drive letter rules of [file:] URLs. *)
Module WhatwgUrl.

Definition between (lo hi c : N) : bool := ((lo <=? c) && (c <=? hi))%N.
Definition oneOf (l : list N) (c : N) : bool := existsb (N.eqb c) l.

Definition isAlpha (c : N) : bool := between 65 90 c || between 97 122 c.
Definition isDigit (c : N) : bool := between 48 57 c.
Definition isSchemeUnit (c : N) : bool :=
  isAlpha c || isDigit c || oneOf [43; 45; 46]%N c.

Fixpoint takeWhile (p : N -> bool) (s : jsstring) : jsstring :=
  match s with
  | [] => []
  | c :: s' => if p c then c :: takeWhile p s' else []
  end.

Fixpoint splitOn (p : N -> bool) (s : jsstring) : list jsstring :=
  match s with
  | [] => [[]]
  | c :: s' =>
      if p c then [] :: splitOn p s'
      else match splitOn p s' with
           | seg :: segs => (c :: seg) :: segs
           | [] => [[c]]
           end
  end.

Definition decimal (n : N) : jsstring :=
  js (DecimalString.NilZero.string_of_uint (N.to_uint n)).

(** Leading and trailing C0 controls and spaces are stripped, then every
    tab and newline is removed. *)
Definition cleanInput (s : jsstring) : jsstring :=
  let c0OrSpace := fun c => (c <=? 32)%N in
  filter (fun c => negb (oneOf [9; 10; 13]%N c))
         (rev (dropWhile c0OrSpace (rev (dropWhile c0OrSpace s)))).

Definition splitScheme (s : jsstring) : option (jsstring * jsstring) :=
  match s with
  | c :: _ =>
      if isAlpha c then
        match dropWhile isSchemeUnit s with
        | d :: rest =>
            if (d =? 58)%N then Some (toLowerCase (takeWhile isSchemeUnit s), rest)
            else None
        | [] => None
        end
      else None
  | [] => None
  end.

Definition defaultPort (scheme : jsstring) : option N :=
  if str_eqb scheme (js "http") || str_eqb scheme (js "ws") then Some 80%N
  else if str_eqb scheme (js "https") || str_eqb scheme (js "wss") then Some 443%N
  else if str_eqb scheme (js "ftp") then Some 21%N
  else None.

Definition isFile (scheme : jsstring) : bool := str_eqb scheme (js "file").
Definition isSpecial (scheme : jsstring) : bool :=
  match defaultPort scheme with Some _ => true | None => isFile scheme end.

(** *** Percent-encoding *)

Fixpoint codePoints (s : jsstring) : list N :=
  match s with
  | [] => []
  | c :: s' =>
      if between 55296 56319 c then
        match s' with
        | d :: s'' =>
            if between 56320 57343 d
            then (65536 + (c - 55296) * 1024 + (d - 56320))%N :: codePoints s''
            else 65533%N :: codePoints s'
        | [] => [65533%N]
        end
      else if between 56320 57343 c then 65533%N :: codePoints s'
      else c :: codePoints s'
  end.

Definition utf8 (cp : N) : list N :=
  (if cp <? 128 then [cp]
   else if cp <? 2048 then [192 + cp / 64; 128 + cp mod 64]
   else if cp <? 65536
        then [224 + cp / 4096; 128 + (cp / 64) mod 64; 128 + cp mod 64]
        else [240 + cp / 262144; 128 + (cp / 4096) mod 64;
              128 + (cp / 64) mod 64; 128 + cp mod 64])%N.

Definition hexDigit (n : N) : N := (if n <? 10 then 48 + n else 55 + n)%N.
Definition percentByte (b : N) : jsstring :=
  [37%N; hexDigit (b / 16); hexDigit (b mod 16)].

Definition percentEncode (inSet : N -> bool) (s : jsstring) : jsstring :=
  flat_map (fun cp => if inSet cp then flat_map percentByte (utf8 cp) else [cp])
           (codePoints s).

Definition c0ControlSet (c : N) : bool := ((c <? 32) || (126 <? c))%N.
Definition fragmentSet (c : N) : bool :=
  c0ControlSet c || oneOf [32; 34; 60; 62; 96]%N c.
Definition querySet (c : N) : bool :=
  c0ControlSet c || oneOf [32; 34; 35; 60; 62]%N c.
Definition specialQuerySet (c : N) : bool := querySet c || (c =? 39)%N.
Definition pathSet (c : N) : bool :=
  querySet c || oneOf [63; 94; 96; 123; 125]%N c.
Definition userinfoSet (c : N) : bool :=
  pathSet c || oneOf [47; 58; 59; 61; 64; 91; 92; 93; 124]%N c.

Definition hexValue (c : N) : option N :=
  if isDigit c then Some (c - 48)%N
  else if between 65 70 c then Some (c - 55)%N
  else if between 97 102 c then Some (c - 87)%N
  else None.

Fixpoint percentDecode (s : jsstring) : list N :=
  match s with
  | [] => []
  | c :: s' =>
      match s' with
      | h :: (l :: s'') =>
          match (if (c =? 37)%N then hexValue h else None), hexValue l with
          | Some x, Some y => (x * 16 + y)%N :: percentDecode s''
          | _, _ => c :: percentDecode s'
          end
      | _ => c :: percentDecode s'
      end
  end.

(** *** Hosts *)

Definition forbiddenHostUnit (c : N) : bool :=
  oneOf [0; 9; 10; 13; 32; 35; 47; 58; 60; 62; 63; 64; 91; 92; 93; 94; 124]%N c.
Definition forbiddenDomainUnit (c : N) : bool :=
  forbiddenHostUnit c || (c <=? 31)%N || oneOf [37; 127]%N c.

Fixpoint digitsValue (radix : N) (acc : N) (s : jsstring) : option N :=
  match s with
  | [] => Some acc
  | c :: s' =>
      match hexValue c with
      | Some d => if (d <? radix)%N then digitsValue radix (acc * radix + d)%N s'
                  else None
      | None => None
      end
  end.

Definition parseIPv4Number (part : jsstring) : option N :=
  match part with
  | [] => None
  | c :: rest =>
      if (c =? 48)%N then
        match rest with
        | [] => Some 0%N
        | x :: rest' =>
            if oneOf [88; 120]%N x then digitsValue 16 0 rest'
            else digitsValue 8 0 rest
        end
      else digitsValue 10 0 part
  end.

Definition dropEmptyLast (parts : list jsstring) : list jsstring :=
  match rev parts with
  | [] :: (p :: ps) => rev (p :: ps)
  | _ => parts
  end.

Definition endsInNumber (host : jsstring) : bool :=
  let parts := splitOn (N.eqb 46) host in
  match rev parts with
  | [[]] => false
  | _ =>
      match rev (dropEmptyLast parts) with
      | lastPart :: _ =>
          match lastPart with
          | _ :: _ =>
              forallb isDigit lastPart
              || match parseIPv4Number lastPart with Some _ => true | None => false end
          | [] => false
          end
      | [] => false
      end
  end.

Fixpoint ipv4Sum (numbers : list (option N)) (weight : N) : option N :=
  match numbers with
  | [] => None
  | [lastNumber] =>
      match lastNumber with
      | Some n => if (n <? 256 * weight)%N then Some n else None
      | None => None
      end
  | x :: rest =>
      match x, ipv4Sum rest (weight / 256) with
      | Some n, Some acc => if (255 <? n)%N then None else Some (n * weight + acc)%N
      | _, _ => None
      end
  end.

Definition parseIPv4 (host : jsstring) : option jsstring :=
  let parts := dropEmptyLast (splitOn (N.eqb 46) host) in
  if (4 <? List.length parts)%nat then None
  else
    match ipv4Sum (map parseIPv4Number parts) 16777216 with
    | Some a =>
        Some (decimal (a / 16777216)%N ++ js "." ++ decimal ((a / 65536) mod 256)%N
              ++ js "." ++ decimal ((a / 256) mod 256)%N ++ js "." ++ decimal (a mod 256)%N)
    | None => None
    end.

Definition parseHost (special : bool) (input : jsstring) : option jsstring :=
  match input with
  | c :: _ =>
      if (c =? 91)%N then None
      else if negb special then
        if existsb forbiddenHostUnit input then None
        else Some (percentEncode c0ControlSet input)
      else
        let domain := toLowerCase (percentDecode (flat_map utf8 (codePoints input))) in
        if existsb (N.ltb 127) domain then None
        else match domain with
             | [] => None
             | _ :: _ =>
                 if existsb forbiddenDomainUnit domain then None
                 else if endsInNumber domain then parseIPv4 domain
                 else Some domain
             end
  | [] => if special then None else Some []
  end.

(** *** Records, paths and the state machine *)

Record record : Type := mkRecord {
  scheme : jsstring;
  username : jsstring;
  password : jsstring;
  host : option jsstring;
  port : option N;
  opaquePath : option jsstring;
  path : list jsstring;
  query : option jsstring;
  fragment : option jsstring
}.

Definition isSlash (special : bool) (c : N) : bool :=
  (c =? 47)%N || (special && (c =? 92)%N).

Definition isSingleDot (seg : jsstring) : bool :=
  includes [js "."; js "%2e"] (toLowerCase seg).
Definition isDoubleDot (seg : jsstring) : bool :=
  includes [js ".."; js ".%2e"; js "%2e."; js "%2e%2e"] (toLowerCase seg).

Fixpoint pathState (path : list jsstring) (segments : list jsstring)
  : list jsstring :=
  match segments with
  | [] => path
  | seg :: rest =>
      let isLast := match rest with [] => true | _ :: _ => false end in
      let path' :=
        if isDoubleDot seg
        then (if isLast then removelast path ++ [[]] else removelast path)
        else if isSingleDot seg
             then (if isLast then path ++ [[]] else path)
             else path ++ [percentEncode pathSet seg] in
      pathState path' rest
  end.

Definition isQueryOrFragmentStart (c : N) : bool := oneOf [63; 35]%N c.

(** Query and fragment, from the first [?] or [#] on. *)
Definition parseTail (special : bool) (t : jsstring)
  : option jsstring * option jsstring :=
  let fragmentOf := fun r =>
    match r with
    | _ :: f => Some (percentEncode fragmentSet f)
    | [] => None
    end in
  match t with
  | c :: t' =>
      if (c =? 63)%N then
        let notHash := fun c => negb (c =? 35)%N in
        (Some (percentEncode (if special then specialQuerySet else querySet)
                             (takeWhile notHash t')),
         fragmentOf (dropWhile notHash t'))
      else (None, fragmentOf t)
  | [] => (None, None)
  end.

(** A hierarchical path starting at [s], appended to [initial]. *)
Definition withPath (special : bool) (sch user pass : jsstring)
  (h : option jsstring) (p : option N) (initial : list jsstring)
  (s : jsstring) : record :=
  let notTail := fun c => negb (isQueryOrFragmentStart c) in
  let body := takeWhile notTail s in
  let '(q, f) := parseTail special (dropWhile notTail s) in
  mkRecord sch user pass h p None
           (pathState initial (splitOn (isSlash special) body)) q f.

(** Path start state: a special URL always has a path; one leading slash
    opens the path. *)
Definition pathStart (special : bool) (sch user pass : jsstring)
  (h : option jsstring) (p : option N) (s : jsstring) : record :=
  match s with
  | c :: s' =>
      if isSlash special c then withPath special sch user pass h p [] s'
      else if isQueryOrFragmentStart c && negb special
           then let '(q, f) := parseTail special s in
                mkRecord sch user pass h p None [] q f
           else withPath special sch user pass h p [] s
  | [] =>
      if special then withPath special sch user pass h p [] []
      else mkRecord sch user pass h p None [] None None
  end.

Definition parsePort (sch : jsstring) (digits : jsstring) : option (option N) :=
  match digits with
  | [] => Some None
  | _ :: _ =>
      if forallb isDigit digits then
        match digitsValue 10 0 digits with
        | Some n =>
            if (65535 <? n)%N then None
            else if match defaultPort sch with
                    | Some d => (d =? n)%N
                    | None => false
                    end
                 then Some None
                 else Some (Some n)
        | None => None
        end
      else None
  end.

(** Index of the last [@] of the authority, as the split it induces. *)
Fixpoint splitLastAt (s : jsstring) : option (jsstring * jsstring) :=
  match s with
  | [] => None
  | c :: s' =>
      match splitLastAt s' with
      | Some (creds, hostPort) => Some (c :: creds, hostPort)
      | None => if (c =? 64)%N then Some ([], s') else None
      end
  end.

(** Authority state, host state and port state, on the input after the
    slashes that introduce the authority. *)
Definition authority (special : bool) (sch : jsstring) (s : jsstring)
  : option record :=
  let inAuthority := fun c => negb (isSlash special c || isQueryOrFragmentStart c) in
  let auth := takeWhile inAuthority s in
  let rest := dropWhile inAuthority s in
  let notColon := fun c => negb (c =? 58)%N in
  let '(user, pass, hostPort, atSignSeen) :=
    match splitLastAt auth with
    | Some (creds, hostPort) =>
        (percentEncode userinfoSet (takeWhile notColon creds),
         percentEncode userinfoSet (tl (dropWhile notColon creds)),
         hostPort, true)
    | None => ([], [], auth, false)
    end in
  if atSignSeen && match hostPort with [] => true | _ :: _ => false end then None
  else
    let hostText := takeWhile notColon hostPort in
    let portText := dropWhile notColon hostPort in
    match portText, hostText with
    | _ :: _, [] => None
    | _, _ =>
        match parseHost special hostText, parsePort sch (tl portText) with
        | Some h, Some p => Some (pathStart special sch user pass (Some h) p rest)
        | _, _ => None
        end
    end.

(** Relative state and relative slash state: [s] is resolved against the
    hierarchical [base]. *)
Definition relative (base : record) (s : jsstring) : option record :=
  let sch := scheme base in
  let special := isSpecial sch in
  let copy := fun pathOf q f =>
    mkRecord sch (username base) (password base) (host base) (port base)
             None pathOf q f in
  match s with
  | [] => Some (copy (path base) (query base) None)
  | c :: s' =>
      if isSlash special c then
        match s' with
        | d :: s'' =>
            if special && isSlash special d && negb (isFile sch)
            then authority special sch (dropWhile (isSlash special) s'')
            else if (d =? 47)%N && negb (isFile sch)
                 then authority special sch s''
                 else Some (withPath special sch (username base) (password base)
                                     (host base) (port base) [] s')
        | [] => Some (withPath special sch (username base) (password base)
                               (host base) (port base) [] s')
        end
      else if (c =? 63)%N then
        let '(q, f) := parseTail special s in Some (copy (path base) q f)
      else if (c =? 35)%N then
        let '(_, f) := parseTail special s in Some (copy (path base) (query base) f)
      else Some (withPath special sch (username base) (password base)
                          (host base) (port base) (removelast (path base)) s)
  end.

(** File state, file slash state and file host state. *)
Definition fileState (base : option record) (s : jsstring) : option record :=
  let sch := js "file" in
  let fileBase :=
    match base with
    | Some b => if isFile (scheme b) then Some b else None
    | None => None
    end in
  let baseHost :=
    match fileBase with
    | Some b => host b
    | None => Some []
    end in
  let inHost := fun c => negb (isSlash true c || isQueryOrFragmentStart c) in
  match s with
  | c :: s' =>
      if isSlash true c then
        match s' with
        | d :: s'' =>
            if isSlash true d then
              match takeWhile inHost s'' with
              | [] => Some (pathStart true sch [] [] (Some []) None (dropWhile inHost s''))
              | hostText =>
                  match parseHost true hostText with
                  | Some h =>
                      Some (pathStart true sch [] []
                              (Some (if str_eqb h (js "localhost") then [] else h))
                              None (dropWhile inHost s''))
                  | None => None
                  end
              end
            else Some (withPath true sch [] [] baseHost None [] s')
        | [] => Some (withPath true sch [] [] baseHost None [] s')
        end
      else
        match fileBase with
        | Some b => relative b s
        | None => Some (withPath true sch [] [] (Some []) None [] s)
        end
  | [] =>
      match fileBase with
      | Some b => relative b s
      | None => Some (withPath true sch [] [] (Some []) None [] s)
      end
  end.

Definition parseRecord (input : jsstring) (base : option record) : option record :=
  let s := cleanInput input in
  match splitScheme s with
  | Some (sch, rest) =>
      if isFile sch then fileState base rest
      else if isSpecial sch then
        let sameSchemeBase :=
          match base with
          | Some b => if str_eqb (scheme b) sch then Some b else None
          | None => None
          end in
        match sameSchemeBase, rest with
        | Some b, c :: (d :: rest') =>
            if (c =? 47)%N && (d =? 47)%N
            then authority true sch (dropWhile (isSlash true) rest')
            else relative b rest
        | Some b, _ => relative b rest
        | None, _ => authority true sch (dropWhile (isSlash true) rest)
        end
      else
        match rest with
        | c :: rest' =>
            if (c =? 47)%N then
              match rest' with
              | d :: rest'' =>
                  if (d =? 47)%N then authority false sch rest''
                  else Some (withPath false sch [] [] None None [] rest')
              | [] => Some (withPath false sch [] [] None None [] rest')
              end
            else
              let notTail := fun c => negb (isQueryOrFragmentStart c) in
              let '(q, f) := parseTail false (dropWhile notTail rest) in
              Some (mkRecord sch [] [] None None
                             (Some (percentEncode c0ControlSet (takeWhile notTail rest)))
                             [] q f)
        | [] => Some (mkRecord sch [] [] None None (Some []) [] None None)
        end
  | None =>
      match base with
      | None => None
      | Some b =>
          match opaquePath b with
          | Some _ =>
              match s with
              | c :: _ =>
                  if (c =? 35)%N then
                    let '(_, f) := parseTail false s in
                    Some (mkRecord (scheme b) [] [] None None (opaquePath b) []
                                   (query b) f)
                  else None
              | [] => None
              end
          | None => if isFile (scheme b) then fileState base s else relative b s
          end
      end
  end.

(** *** Serializer and the [URL] object *)

Definition serializePath (r : record) : jsstring :=
  match opaquePath r with
  | Some p => p
  | None => flat_map (fun seg => js "/" ++ seg) (path r)
  end.

Definition serializeHostPort (r : record) : jsstring :=
  match host r with
  | Some h => h ++ match port r with
                   | Some p => js ":" ++ decimal p
                   | None => []
                   end
  | None => []
  end.

Definition prefixed (mark : string) (part : option jsstring) : jsstring :=
  match part with
  | Some (c :: p) => js mark ++ c :: p
  | Some [] | None => []
  end.

Definition serialize (r : record) : jsstring :=
  scheme r ++ js ":"
  ++ match host r with
     | Some _ =>
         js "//"
         ++ match username r, password r with
            | [], [] => []
            | u, [] => u ++ js "@"
            | u, p => u ++ js ":" ++ p ++ js "@"
            end
         ++ serializeHostPort r
     | None =>
         match opaquePath r, path r with
         | None, [] :: (_ :: _) => js "/."
         | _, _ => []
         end
     end
  ++ serializePath r
  ++ match query r with Some q => js "?" ++ q | None => [] end
  ++ match fragment r with Some f => js "#" ++ f | None => [] end.

Definition tupleOrigin (r : record) : option jsstring :=
  match defaultPort (scheme r) with
  | Some _ => Some (scheme r ++ js "://" ++ serializeHostPort r)
  | None => None
  end.

Definition originOf (r : record) : jsstring :=
  match tupleOrigin r with
  | Some o => o
  | None =>
      if str_eqb (scheme r) (js "blob") then
        match parseRecord (serializePath r) None with
        | Some inner =>
            if str_eqb (scheme inner) (js "http") || str_eqb (scheme inner) (js "https")
            then match tupleOrigin inner with Some o => o | None => js "null" end
            else js "null"
        | None => js "null"
        end
      else js "null"
  end.

Definition toURL (r : record) : URL :=
  mkURL (serialize r) (originOf r) (scheme r ++ js ":") (serializePath r)
        (prefixed "?" (query r)) (prefixed "#" (fragment r)).

(** [new URL(input)] and [new URL(input, base)] *)
Definition newURL (input : jsstring) (base : option jsstring) : option URL :=
  match base with
  | None => option_map toURL (parseRecord input None)
  | Some b =>
      match parseRecord b None with
      | Some baseRecord => option_map toURL (parseRecord input (Some baseRecord))
      | None => None
      end
  end.

End WhatwgUrl.


(* ================================================================== *)
(** ** lib/parse-blocks.ts *)
(* ================================================================== *)

Module ParseBlocks.

(** A token of the external lexer, as far as [extractMeta] reads it: each
    field is [Some s] when the property is present and is a string. *)
Record Token : Type := mkToken {
  token_raw : option jsstring;
  token_text : option jsstring;
  token_type : option jsstring
}.

Record TokenMeta : Type := mkTokenMeta {
  raw : jsstring;
  type : jsstring;
  orig : Token
}.

Definition extractMeta (token : Token) : TokenMeta :=
  let raw :=
    match token_raw token with
    | Some r => r
    | None => match token_text token with
              | Some t => t
              | None => []
              end
    end in
  let type := match token_type token with Some t => t | None => [] end in
  mkTokenMeta raw type token.

Definition anyUnit (_ : code_unit) : bool := true.
Definition newline : jsstring := [10%N].

(** One capture of the group [(\${1,2})] with its back-reference [\1]. *)
Definition blockKatexShape (delimiter : jsstring) : regex :=
  Seq (Lit delimiter)
    (Seq (Lit newline)
       (Seq (StarClass anyUnit)
          (Seq (Lit newline)
             (Seq (Lit delimiter)
                (Alt (Lit newline) EndOfInput))))).

(** [/^(\${1,2})\n([\s\S]*?)\n\1(?:\n|$)/]: the group captures ["$$"] or
    ["$"], and the back-reference repeats the capture. *)
Definition blockKatexRegex : regex :=
  Alt (blockKatexShape (js "$$")) (blockKatexShape (js "$")).

Definition testBlockKatex (s : jsstring) : bool :=
  testAnchored false blockKatexRegex s.

(** [(s.match(/\$\$/g) || []).length] *)
Fixpoint dollarCount (s : jsstring) : nat :=
  match s with
  | a :: ((b :: r) as t) =>
      if ((a =? 36) && (b =? 36))%N then S (dollarCount r) else dollarCount t
  | _ => 0
  end.

(** [blocks.at(-1)] *)
Definition atLast (blocks : list jsstring) : option jsstring :=
  match rev blocks with
  | b :: _ => Some b
  | [] => None
  end.

(** [blocks[blocks.length - 1] = candidate], for a non-empty array *)
Definition setLast (blocks : list jsstring) (candidate : jsstring)
  : list jsstring :=
  removelast blocks ++ [candidate].

(** [blocks.push(block)] *)
Definition push (blocks : list jsstring) (block : jsstring) : list jsstring :=
  blocks ++ [block].

Definition isKatexType (type : jsstring) : bool :=
  str_eqb type (js "blockKatex") || str_eqb type (js "inlineKatex").

(** The two merge attempts of the loop body.  [Some blocks] stands for
    [continue] with [mergedBlocks] equal to [blocks]; [None] for falling
    through to the next statement. *)
Definition mergeStandaloneClosing (mergedBlocks : list jsstring)
  (currentBlock : jsstring) : option (list jsstring) :=
  if str_eqb (trim currentBlock) (js "$$") && (0 <? List.length mergedBlocks)%nat
  then
    match atLast mergedBlocks with
    | None | Some [] => Some mergedBlocks
    | Some previousBlock =>
        let prevStartsWith := startsWith (trimStart previousBlock) (js "$$") in
        let prevDollarCount := dollarCount previousBlock in
        if prevStartsWith && (prevDollarCount mod 2 =? 1)%nat then
          let candidate := previousBlock ++ currentBlock in
          if testBlockKatex (trim candidate)
          then Some (setLast mergedBlocks candidate)
          else None
        else None
    end
  else None.

Definition mergeClosingSuffix (mergedBlocks : list jsstring)
  (currentBlock : jsstring) : option (list jsstring) :=
  if (0 <? List.length mergedBlocks)%nat
     && endsWith (trimEnd currentBlock) (js "$$")
  then
    match atLast mergedBlocks with
    | None | Some [] => Some mergedBlocks
    | Some previousBlock =>
        let prevStartsWith := startsWith (trimStart previousBlock) (js "$$") in
        let prevDollarCount := dollarCount previousBlock in
        let currDollarCount := dollarCount currentBlock in
        if prevStartsWith
           && (prevDollarCount mod 2 =? 1)%nat
           && negb (startsWith (trimStart currentBlock) (js "$$"))
           && (currDollarCount =? 1)%nat
        then
          let candidate := previousBlock ++ currentBlock in
          if testBlockKatex (trim candidate)
          then Some (setLast mergedBlocks candidate)
          else None
        else None
    end
  else None.

(** One iteration of [for (let i = 0; i < tokensWithMeta.length; i++)]. *)
Definition mergeStep (mergedBlocks : list jsstring) (currentMeta : TokenMeta)
  : list jsstring :=
  let currentBlock := raw currentMeta in
  if isKatexType (type currentMeta) then push mergedBlocks currentBlock
  else
    match mergeStandaloneClosing mergedBlocks currentBlock with
    | Some blocks => blocks
    | None =>
        match mergeClosingSuffix mergedBlocks currentBlock with
        | Some blocks => blocks
        | None => push mergedBlocks currentBlock
        end
    end.

Definition mergeBlocks (tokensWithMeta : list TokenMeta) : list jsstring :=
  fold_left mergeStep tokensWithMeta [].

(** [tokenCache]: a [Map] from keys to token arrays, in insertion order. *)
Definition Cache : Type := list (jsstring * list Token).

Definition MAX_CACHE_SIZE : nat := 50.

(** The template literal [`${markdown}:${shouldParseIncompleteMarkdown}`] *)
Definition makeCacheKey (markdown : jsstring)
  (shouldParseIncompleteMarkdown : bool) : jsstring :=
  markdown ++ js ":"
  ++ (if shouldParseIncompleteMarkdown then js "true" else js "false").

(** [tokenCache.has(key)] and [tokenCache.get(key)] *)
Fixpoint cacheGet (tokenCache : Cache) (key : jsstring) : option (list Token) :=
  match tokenCache with
  | [] => None
  | (k, tokens) :: rest =>
      if str_eqb k key then Some tokens else cacheGet rest key
  end.

(** [const firstKey = tokenCache.keys().next().value;
     if (firstKey) tokenCache.delete(firstKey)] *)
Definition cacheDeleteFirst (tokenCache : Cache) : Cache :=
  match tokenCache with
  | (_ :: _, _) :: rest => rest
  | _ => tokenCache
  end.

(** [tokenCache.set(key, tokens)] for a key that is not in the map *)
Definition cacheSet (tokenCache : Cache) (key : jsstring)
  (tokens : list Token) : Cache :=
  tokenCache ++ [(key, tokens)].

Section Pipeline.

(** [instance.lexer] of the external Markdown library, and
    [parseIncompleteMarkdown] of [./parse-incomplete-markdown]. *)
Variable lexer : jsstring -> list Token.
Variable parseIncompleteMarkdown : jsstring -> jsstring.

Definition processBlock (block : jsstring) : jsstring :=
  if testBlockKatex block then block
  else parseIncompleteMarkdown (trim block).

(** The body of [parseMarkdownIntoTokens] between the cache look-up and
    the cache update. *)
Definition tokenize (markdown : jsstring)
  (shouldParseIncompleteMarkdown : bool) : list Token :=
  let tokens := lexer markdown in
  let tokensWithMeta := map extractMeta tokens in
  let mergedBlocks := mergeBlocks tokensWithMeta in
  let processedBlocks :=
    if shouldParseIncompleteMarkdown then map processBlock mergedBlocks
    else mergedBlocks in
  flat_map lexer processedBlocks.

(** [parseMarkdownIntoTokens], with the module-level [tokenCache] passed
    in and returned. *)
Definition parseMarkdownIntoTokens (tokenCache : Cache) (markdown : jsstring)
  (shouldParseIncompleteMarkdown : bool) : list Token * Cache :=
  let cacheKey := makeCacheKey markdown shouldParseIncompleteMarkdown in
  match cacheGet tokenCache cacheKey with
  | Some cached => (cached, tokenCache)
  | None =>
      let finalTokens := tokenize markdown shouldParseIncompleteMarkdown in
      let evicted :=
        if (MAX_CACHE_SIZE <=? List.length tokenCache)%nat
        then cacheDeleteFirst tokenCache
        else tokenCache in
      (finalTokens, cacheSet evicted cacheKey finalTokens)
  end.

End Pipeline.

End ParseBlocks.

(* ================================================================== *)
(** ** TokenParser.svelte: how a link token is rendered *)
(* ================================================================== *)

Module TokenParser.

(** The two branches of the [link] case of the [inLine] snippet: an [<a>]
    element with its [href] and [data-incomplete] attributes, or a [<span>]
    marked "[blocked]" with its [title]. *)
Inductive renderedLink : Type :=
| Anchor (href : jsstring) (dataIncomplete : bool)
| BlockedSpan (title : jsstring).

Definition renderLink (linkTransformer : js_value -> option jsstring)
  (href : jsstring) : renderedLink :=
  let transformedUrl := linkTransformer (JString href) in
  let isIncomplete := str_eqb href incompleteLinkSentinel in
  match transformedUrl with
  | Some url => Anchor url isIncomplete
  | None => BlockedSpan (js "Blocked URL: " ++ href)
  end.

End TokenParser.

(* ================================================================== *)
(** ** The link rule of the incomplete-markdown repairer *)
(* ================================================================== *)

Module IncompleteMarkdown.

(** [Some (before, after)] when [s = before ++ c :: after] and [c] does
    not occur in [after]. *)
Fixpoint splitLast (c : code_unit) (s : jsstring)
  : option (jsstring * jsstring) :=
  match s with
  | [] => None
  | x :: s' =>
      match splitLast c s' with
      | Some (before, after) => Some (x :: before, after)
      | None => if (x =? c)%N then Some ([], s') else None
      end
  end.

(** [Some (before, after)] when [s = before ++ c :: after] and [c] does
    not occur in [before]. *)
Fixpoint splitFirst (c : code_unit) (s : jsstring)
  : option (jsstring * jsstring) :=
  match s with
  | [] => None
  | x :: s' =>
      if (x =? c)%N then Some ([], s')
      else match splitFirst c s' with
           | Some (before, after) => Some (x :: before, after)
           | None => None
           end
  end.

Definition occurs (c : code_unit) (s : jsstring) : bool := existsb (N.eqb c) s.

Definition openBracket : code_unit := 91%N.
Definition closeBracket : code_unit := 93%N.
Definition openParen : code_unit := 40%N.
Definition closeParen : code_unit := 41%N.

Definition incompleteLinkTarget : jsstring :=
  js "](" ++ incompleteLinkSentinel ++ js ")".

(** Modelled from the spec: [lib/parse-incomplete-markdown.ts] is not among
    the sources; this is its rule (e) for a link left open at the end of
    the text.  Section 8 ("repairing [Text with incomplete [link] yields an
    anchor-equivalent token whose href is the sentinel and whose visible
    text is [link]") and the repository tests "should mark incomplete links
    with data attribute(s)" fix the case of a [[text] whose [[] is never
    closed; section 4.1(e) fixes the case of a [[text](url] whose [(] is
    never closed.  The link is the one opened by the last [[] of the
    text.  Image openers [![] and anything else are returned unchanged:
    the spec does not say how the repairer rewrites them. *)
Definition repairIncompleteLink (text : jsstring) : jsstring :=
  match splitLast openBracket text with
  | None => text
  | Some (before, afterBracket) =>
      if endsWith before (js "!") then text
      else
        match splitFirst closeBracket afterBracket with
        | None => text ++ incompleteLinkTarget
        | Some (linkText, afterText) =>
            match afterText with
            | c :: url =>
                if (c =? openParen)%N && negb (occurs closeParen url)
                then before ++ js "[" ++ linkText ++ incompleteLinkTarget
                else text
            | [] => text
            end
        end
  end.

End IncompleteMarkdown.

(* ================================================================== *)
(** ** The vocabulary of the specification *)
(* ================================================================== *)

Module Spec.

(** Control characters 0x00-0x08, 0x0B, 0x0C, 0x0E-0x1F and 0x7F. *)
Definition isControlCharacter (c : code_unit) : Prop :=
  (c <= 8 \/ c = 11 \/ c = 12 \/ (14 <= c /\ c <= 31) \/ c = 127)%N.

(** Zero-width characters U+200B, U+200C, U+200D and U+FEFF. *)
Definition isZeroWidthCharacter (c : code_unit) : Prop :=
  (c = 8203 \/ c = 8204 \/ c = 8205 \/ c = 65279)%N.

(** Space, tab, newline and carriage return. *)
Definition isPlainWhitespace (c : code_unit) : Prop :=
  (c = 32 \/ c = 9 \/ c = 10 \/ c = 13)%N.

(** A dangerous-protocol token, in any mix of upper and lower case,
    followed by optional whitespace and a colon, anywhere in [s]. *)
Definition hasProtocolTokenThenColon (s : jsstring) : Prop :=
  exists pre tok ws post,
    s = pre ++ tok ++ ws ++ js ":" ++ post
    /\ In (toLowerCase tok) Harden.protocolTokens
    /\ Forall (fun c => isWhiteSpace c = true) ws.

(** The block-math shape: an opening delimiter on its own line, a body,
    and the same delimiter closing on its own line. *)
Definition blockMathShape (s : jsstring) : Prop :=
  exists delimiter body rest,
    (delimiter = js "$$" \/ delimiter = js "$")
    /\ s = delimiter ++ ParseBlocks.newline ++ body ++ ParseBlocks.newline
           ++ delimiter ++ rest
    /\ (rest = [] \/ exists r, rest = ParseBlocks.newline ++ r).

(** A block that opens block math and does not close it: it starts with
    the delimiter and counts an odd number of delimiters. *)
Definition opensBlockMath (block : jsstring) : Prop :=
  (exists r, trimStart block = js "$$" ++ r)
  /\ Nat.Odd (ParseBlocks.dollarCount block).

(** A block that closes block math: the delimiter alone, or text that
    ends with the delimiter. *)
Definition closesBlockMath (block : jsstring) : Prop :=
  trim block = js "$$" \/ exists r, trimEnd block = r ++ js "$$".

(** Every entry of the cache holds what tokenizing its key yields. *)
Definition cacheSound (lexer : jsstring -> list ParseBlocks.Token)
  (repair : jsstring -> jsstring) (tokenCache : ParseBlocks.Cache) : Prop :=
  Forall (fun entry =>
            exists markdown flag,
              fst entry = ParseBlocks.makeCacheKey markdown flag
              /\ snd entry = ParseBlocks.tokenize lexer repair markdown flag)
         tokenCache.

(** [s] ends with the inline link [[text](href)]. *)
Definition endsWithAnchor (s text href : jsstring) : Prop :=
  exists before, s = before ++ js "[" ++ text ++ js "](" ++ href ++ js ")".

(** What a merge of [currentBlock] into [previousBlock] requires. *)
Definition mergeChecked (previousBlock currentBlock : jsstring) : Prop :=
  opensBlockMath previousBlock
  /\ closesBlockMath currentBlock
  /\ blockMathShape (trim (previousBlock ++ currentBlock)).

End Spec.

(* ================================================================== *)
(** ** lib/harden-markdown.ts: the options *)
(* ================================================================== *)

Module HardenOptions.

(** [HardenSvelteMarkdownOptions]: each property may be missing. *)
Record HardenSvelteMarkdownOptions : Type := mkOptions {
  defaultOrigin : option jsstring;
  allowedLinkPrefixes : option (list jsstring);
  allowedImagePrefixes : option (list jsstring)
}.

(** The object [validateMarkdownOptions] returns. *)
Record ValidatedOptions : Type := mkValidated {
  validDefaultOrigin : jsstring;
  validLinkPrefixes : list jsstring;
  validImagePrefixes : list jsstring
}.

Definition orDefault {A : Type} (d : A) (o : option A) : A :=
  match o with Some x => x | None => d end.

(** [prefixes.length && !prefixes.every((p) => p === '*')], as a truth value *)
Definition hasSpecificPrefixes (prefixes : list jsstring) : bool :=
  (0 <? List.length prefixes)%nat
  && negb (forallb (fun p => str_eqb p (js "*")) prefixes).

(** [None] stands for the thrown [Error]. *)
Definition validateMarkdownOptions (options : HardenSvelteMarkdownOptions)
  : option ValidatedOptions :=
  let defaultOrigin := orDefault [] (defaultOrigin options) in
  let allowedLinkPrefixes := orDefault [] (allowedLinkPrefixes options) in
  let allowedImagePrefixes := orDefault [] (allowedImagePrefixes options) in
  let hasSpecificLinkPrefixes := hasSpecificPrefixes allowedLinkPrefixes in
  let hasSpecificImagePrefixes := hasSpecificPrefixes allowedImagePrefixes in
  if match defaultOrigin with [] => true | _ :: _ => false end
     && (hasSpecificLinkPrefixes || hasSpecificImagePrefixes)
  then None
  else Some (mkValidated defaultOrigin allowedLinkPrefixes allowedImagePrefixes).

End HardenOptions.

(* ================================================================== *)
(** ** TokenParser.svelte: the transformers and the image case *)
(* ================================================================== *)

Module TokenRender.

(** [linkTransformer] and [imageTransformer]: built from the validated
    options; [None] when the validation throws. *)
Definition linkTransformer
  (newURL : jsstring -> option jsstring -> option URL)
  (options : HardenOptions.HardenSvelteMarkdownOptions)
  : option (js_value -> option jsstring) :=
  match HardenOptions.validateMarkdownOptions options with
  | Some opts =>
      Some (Harden.createHardenedUrlTransformer newURL
              (HardenOptions.validLinkPrefixes opts)
              (Some (HardenOptions.validDefaultOrigin opts)))
  | None => None
  end.

Definition imageTransformer
  (newURL : jsstring -> option jsstring -> option URL)
  (options : HardenOptions.HardenSvelteMarkdownOptions)
  : option (js_value -> option jsstring) :=
  match HardenOptions.validateMarkdownOptions options with
  | Some opts =>
      Some (Harden.createHardenedUrlTransformer newURL
              (HardenOptions.validImagePrefixes opts)
              (Some (HardenOptions.validDefaultOrigin opts)))
  | None => None
  end.

(** The two branches of the [image] case: an [<img>] with its [src] and
    [alt], or the placeholder span with its text. *)
Inductive renderedImage : Type :=
| Img (src alt : jsstring)
| BlockedImage (text : jsstring).

(** [a || b] on strings *)
Definition orElse (a b : jsstring) : jsstring :=
  match a with [] => b | _ :: _ => a end.

Definition renderImage (imageTransformer : js_value -> option jsstring)
  (href text : jsstring) : renderedImage :=
  let src := href in
  let alt := orElse text (js "Image") in
  let transformedUrl := imageTransformer (JString src) in
  match transformedUrl with
  | Some url => Img url alt
  | None =>
      BlockedImage (js "[Image blocked: " ++ orElse alt (js "No description")
                    ++ js "]")
  end.

End TokenRender.

(* ================================================================== *)
(** ** Streamdown.svelte: the keys of the token list *)
(* ================================================================== *)

Module StreamdownKeys.

(** What [getTokenKey] reads of a token: [lang] may be missing, and so may
    the [text] property. *)
Record KeyedToken : Type := mkKeyedToken {
  type : jsstring;
  lang : option jsstring;
  raw : jsstring;
  text : option jsstring
}.

(** The decimal text of a non-negative integer, as a template literal
    prints an array index or a length. *)
Definition numberToString (n : nat) : jsstring :=
  js (DecimalString.NilZero.string_of_uint (Nat.to_uint n)).

Definition underscore : jsstring := js "_".

Definition getTokenKey (token : KeyedToken) (index : nat) : jsstring :=
  if str_eqb (type token) (js "code") then
    let language :=
      match lang token with
      | Some (c :: l) => c :: l
      | Some [] | None => js "text"
      end in
    js "code_" ++ language ++ underscore ++ numberToString index
  else
    let text :=
      match raw token with
      | c :: r => c :: r
      | [] => match text token with Some t => t | None => [] end
      end in
    let lengthChunk :=
      if (0 <? List.length text)%nat then (List.length text / 50)%nat else 0%nat in
    type token ++ underscore ++ numberToString lengthChunk ++ underscore
    ++ numberToString index.

(** The keys of [{#each tokens() as token, j (getTokenKey(token, j))}],
    from index [j] on. *)
Fixpoint keysFrom (j : nat) (tokens : list KeyedToken) : list jsstring :=
  match tokens with
  | [] => []
  | token :: rest => getTokenKey token j :: keysFrom (S j) rest
  end.

Definition eachKeys (tokens : list KeyedToken) : list jsstring :=
  keysFrom 0 tokens.

End StreamdownKeys.

(* ================================================================== *)
(** ** lib/table/table-utils.ts *)
(* ================================================================== *)

Module TableUtils.

Record TableData : Type := mkTableData {
  headers : list jsstring;
  rows : list (list jsstring)
}.

Definition comma : code_unit := 44%N.
Definition quote : code_unit := 34%N.
Definition lineFeed : code_unit := 10%N.
Definition pipe : code_unit := 124%N.
Definition backslash : code_unit := 92%N.

(** [value.includes(c)] for a one-character string *)
Definition includesUnit (c : code_unit) (value : jsstring) : bool :=
  existsb (N.eqb c) value.

(** [value.replace(/c/g, replacement)] for a one-character pattern and a
    replacement without [$] *)
Definition replaceAll (c : code_unit) (replacement : jsstring)
  (value : jsstring) : jsstring :=
  flat_map (fun x => if (x =? c)%N then replacement else [x]) value.

(** [parts.join(separator)] *)
Fixpoint join (separator : jsstring) (parts : list jsstring) : jsstring :=
  match parts with
  | [] => []
  | [p] => p
  | p :: rest => p ++ separator ++ join separator rest
  end.

Definition escapeCSV (value : jsstring) : jsstring :=
  if includesUnit comma value || includesUnit quote value
     || includesUnit lineFeed value
  then [quote] ++ replaceAll quote [quote; quote] value ++ [quote]
  else value.

Definition tableDataToCSV (data : TableData) : jsstring :=
  let csvRows :=
    (if (0 <? List.length (headers data))%nat
     then [join [comma] (map escapeCSV (headers data))]
     else [])
    ++ map (fun row => join [comma] (map escapeCSV row)) (rows data) in
  join [lineFeed] csvRows.

Definition escapePipes (cell : jsstring) : jsstring :=
  replaceAll pipe [backslash; pipe] cell.

(** [`| ${cells.join(' | ')} |`] *)
Definition markdownRow (cells : list jsstring) : jsstring :=
  js "| " ++ join (js " | ") cells ++ js " |".

(** [while (paddedRow.length < n) paddedRow.push('')]; every iteration
    brings the length closer to [n], so [fuel] iterations are enough when
    [fuel] is at least [n]. *)
Fixpoint padLoop (fuel : nat) (paddedRow : list jsstring) (n : nat)
  : list jsstring :=
  if (List.length paddedRow <? n)%nat then
    match fuel with
    | S fuel' => padLoop fuel' (paddedRow ++ [[]]) n
    | O => paddedRow
    end
  else paddedRow.

Definition padRow (row : list jsstring) (n : nat) : list jsstring :=
  padLoop n row n.

Definition tableDataToMarkdown (data : TableData) : jsstring :=
  if (List.length (headers data) =? 0)%nat then []
  else
    let escapedHeaders := map escapePipes (headers data) in
    let markdownRows :=
      [markdownRow escapedHeaders;
       markdownRow (map (fun _ => js "---") (headers data))]
      ++ map (fun row =>
                let paddedRow := padRow row (List.length (headers data)) in
                markdownRow (map escapePipes paddedRow))
             (rows data) in
    join [lineFeed] markdownRows.

End TableUtils.

(* ================================================================== *)
(** ** Readers for what the table functions write *)
(* ================================================================== *)

(** The reading side that the properties of [TableUtils] are stated
    against: a reader of comma-separated values in which a field is either
    plain or quoted with doubled quotes and records end at line feeds, and
    the removal of the backslash that escapes a pipe. *)
Module Readers.

Inductive csvState : Type :=
| FieldStart
| InPlain
| InQuoted
| AfterQuote.

(** One pass over the text: [field] is the field being read, [record] the
    fields of the current record and [records] the records read so far. *)
Fixpoint readCSVFrom (state : csvState) (field : jsstring)
  (record : list jsstring) (records : list (list jsstring))
  (s : jsstring) : list (list jsstring) :=
  match s with
  | [] => records ++ [record ++ [field]]
  | c :: s' =>
      match state with
      | InQuoted =>
          if (c =? TableUtils.quote)%N
          then readCSVFrom AfterQuote field record records s'
          else readCSVFrom InQuoted (field ++ [c]) record records s'
      | _ =>
          if (c =? TableUtils.comma)%N
          then readCSVFrom FieldStart [] (record ++ [field]) records s'
          else if (c =? TableUtils.lineFeed)%N
          then readCSVFrom FieldStart [] [] (records ++ [record ++ [field]]) s'
          else if (c =? TableUtils.quote)%N
          then
            match state with
            | FieldStart => readCSVFrom InQuoted field record records s'
            | AfterQuote => readCSVFrom InQuoted (field ++ [c]) record records s'
            | _ => readCSVFrom InPlain (field ++ [c]) record records s'
            end
          else readCSVFrom InPlain (field ++ [c]) record records s'
      end
  end.

Definition readCSV (s : jsstring) : list (list jsstring) :=
  readCSVFrom FieldStart [] [] [] s.

(** Removes the backslash in front of every pipe. *)
Fixpoint unescapePipes (s : jsstring) : jsstring :=
  match s with
  | [] => []
  | c :: s' =>
      match s' with
      | d :: s'' =>
          if ((c =? TableUtils.backslash) && (d =? TableUtils.pipe))%N
          then d :: unescapePipes s''
          else c :: unescapePipes s'
      | [] => [c]
      end
  end.

End Readers.

(* ================================================================== *)
(** * Properties *)
(* ================================================================== *)

(** ** Strings *)

Lemma str_eqb_eq a b : str_eqb a b = true <-> a = b.
Proof.
  revert b; induction a as [|x a IH]; intros [|y b]; simpl;
    try (split; [discriminate | discriminate]); try tauto.
  rewrite andb_true_iff, N.eqb_eq, IH. split.
  - now intros [-> ->].
  - intros H; injection H; auto.
Qed.

Lemma str_eqb_refl a : str_eqb a a = true.
Proof. now apply str_eqb_eq. Qed.

Lemma str_eqb_neq a b : str_eqb a b = false <-> a <> b.
Proof.
  split.
  - intros H E. apply str_eqb_eq in E. congruence.
  - intros H. destruct (str_eqb a b) eqn:E; [|reflexivity].
    apply str_eqb_eq in E. contradiction.
Qed.

Lemma startsWith_app s p : startsWith s p = true <-> exists r, s = p ++ r.
Proof.
  revert s; induction p as [|y p IH]; intros s; simpl.
  - split; [intros _; now exists s | reflexivity].
  - destruct s as [|x s].
    + split; [discriminate | intros [r Hr]; discriminate].
    + rewrite andb_true_iff, N.eqb_eq, IH. split.
      * intros [-> [r ->]]. now exists r.
      * intros [r Hr]. injection Hr as -> ->. split; [reflexivity | now exists r].
Qed.

Lemma includes_In arr x : includes arr x = true <-> In x arr.
Proof.
  unfold includes. rewrite existsb_exists. split.
  - intros [y [Hy He]]. apply str_eqb_eq in He. now subst.
  - intros H. exists x. split; [assumption | apply str_eqb_refl].
Qed.

(** ** The matcher against the declarative reading of a regex *)

Section MatcherFacts.

Variable ignoreCase : bool.

Lemma matchLit_Some p s s' :
  matchLit ignoreCase p s = Some s' <->
  exists w, s = w ++ s' /\ LitEq ignoreCase w p.
Proof.
  revert s; induction p as [|y p IH]; intros s; simpl.
  - split.
    + intros [= ->]. exists []. split; [reflexivity | constructor].
    + intros [w [-> H]]. inversion H. reflexivity.
  - destruct s as [|x s].
    + split; [discriminate|]. intros [w [E H]]. inversion H; subst. discriminate.
    + destruct (unit_eqb ignoreCase x y) eqn:Exy.
      * rewrite IH. split.
        -- intros [w [-> H]]. exists (x :: w). split; [reflexivity|].
           now constructor.
        -- intros [w [E H]]. inversion H; subst. injection E as -> ->.
           eauto.
      * split; [discriminate|]. intros [w [E H]]. inversion H; subst.
        injection E as -> ->. congruence.
Qed.

Lemma matchStar_true p s k :
  matchStar p s k = true <->
  exists w s', s = w ++ s' /\ Forall (fun c => p c = true) w /\ k s' = true.
Proof.
  induction s as [|c s IH]; simpl.
  - rewrite orb_false_r. split.
    + intros H. exists [], []. auto.
    + intros [w [s' [E [_ H]]]]. symmetry in E. apply app_eq_nil in E.
      destruct E as [-> ->]. exact H.
  - rewrite orb_true_iff, andb_true_iff, IH. split.
    + intros [H | [Hc [w [s' [-> [Hw Hk]]]]]].
      * exists [], (c :: s). auto.
      * exists (c :: w), s'. auto.
    + intros [[|x w] [s' [E [Hw Hk]]]]; simpl in E.
      * left. now subst.
      * injection E as -> ->. inversion Hw; subst. right. split; [assumption|].
        now exists w, s'.
Qed.

Lemma matchAt_true r : forall s k,
  matchAt ignoreCase r s k = true <->
  exists s', Matches ignoreCase r s s' /\ k s' = true.
Proof.
  induction r as [| p | p | r1 IH1 r2 IH2 | r1 IH1 r2 IH2 | p |];
    intros s k; simpl.
  - split.
    + intros H. exists s. split; [constructor | assumption].
    + intros [s' [M H]]. inversion M; subst. assumption.
  - destruct s as [|c s].
    + split; [discriminate|]. intros [s' [M _]]. inversion M.
    + rewrite andb_true_iff. split.
      * intros [Hc Hk]. exists s. split; [now constructor | assumption].
      * intros [s' [M Hk]]. inversion M; subst. auto.
  - destruct (matchLit ignoreCase p s) as [s1|] eqn:E.
    + apply matchLit_Some in E. destruct E as [w [-> Hw]]. split.
      * intros Hk. exists s1. split; [now constructor | assumption].
      * intros [s' [M Hk]]. inversion M as [| |? w' ? Hw' E1 E2| | | | |]; subst.
        assert (w' = w /\ s' = s1) as [-> ->]; [|assumption].
        clear - Hw Hw' E2. revert w' Hw' E2.
        induction Hw as [|x y w p Hxy Hw IH]; intros w' Hw' E; inversion Hw'; subst.
        -- auto.
        -- simpl in E. injection E as -> E.
           destruct (IH _ H3 E) as [-> ->]. auto.
    + split; [discriminate|]. intros [s' [M _]].
      inversion M as [| |? w ? Hw E1 E2| | | | |]; subst.
      assert (matchLit ignoreCase p (w ++ s') = Some s') as E'
        by (apply matchLit_Some; eauto).
      congruence.
  - rewrite IH1. split.
    + intros [s1 [M1 H]]. apply IH2 in H. destruct H as [s2 [M2 H]].
      exists s2. split; [econstructor; eassumption | assumption].
    + intros [s2 [M H]]. inversion M; subst. eexists. split; [eassumption|].
      apply IH2. eauto.
  - rewrite orb_true_iff, IH1, IH2. split.
    + intros [[s' [M H]] | [s' [M H]]]; exists s'; split; auto using M_AltL, M_AltR.
    + intros [s' [M H]]. inversion M; subst; eauto.
  - rewrite matchStar_true. split.
    + intros [w [s' [-> [Hw Hk]]]]. exists s'. split; [now constructor | assumption].
    + intros [s' [M Hk]]. inversion M; subst. eauto.
  - destruct s as [|c s].
    + split.
      * intros H. exists []. split; [constructor | assumption].
      * intros [s' [M H]]. inversion M; subst. assumption.
    + split; [discriminate|]. intros [s' [M _]]. inversion M.
Qed.

Lemma test_true r s :
  test ignoreCase r s = true <->
  exists pre s1 s', s = pre ++ s1 /\ Matches ignoreCase r s1 s'.
Proof.
  induction s as [|c s IH]; simpl.
  - rewrite orb_false_r. unfold accept. rewrite matchAt_true. split.
    + intros [s' [M _]]. exists [], [], s'. auto.
    + intros [pre [s1 [s' [E M]]]]. symmetry in E. apply app_eq_nil in E.
      destruct E as [-> ->]. eauto.
  - rewrite orb_true_iff, IH, matchAt_true. split.
    + intros [[s' [M _]] | [pre [s1 [s' [-> M]]]]].
      * exists [], (c :: s), s'. auto.
      * exists (c :: pre), s1, s'. auto.
    + intros [[|x pre] [s1 [s' [E M]]]]; simpl in E.
      * left. subst. eauto.
      * injection E as -> ->. right. eauto.
Qed.

Lemma Matches_alternatives rs s s' :
  Matches ignoreCase (alternatives rs) s s' <->
  exists r, In r rs /\ Matches ignoreCase r s s'.
Proof.
  induction rs as [|r rs IH]; simpl.
  - split.
    + intros M. inversion M; subst. discriminate.
    + intros [r [[] _]].
  - destruct rs as [|r' rs].
    + split; [intros M; exists r; auto |].
      intros [r0 [[-> | []] M]]. assumption.
    + split.
      * intros M. inversion M; subst.
        -- exists r. auto.
        -- apply IH in H3. destruct H3 as [r0 [Hin M0]]. exists r0. auto.
      * intros [r0 [[-> | Hin] M]].
        -- now apply M_AltL.
        -- apply M_AltR. apply IH. eauto.
Qed.

Lemma Matches_Seq_inv r1 r2 s s'' :
  Matches ignoreCase (Seq r1 r2) s s'' ->
  exists s', Matches ignoreCase r1 s s' /\ Matches ignoreCase r2 s' s''.
Proof. intros M. inversion M; subst. eauto. Qed.

Lemma Matches_Lit_inv p s s' :
  Matches ignoreCase (Lit p) s s' ->
  exists w, s = w ++ s' /\ LitEq ignoreCase w p.
Proof. intros M. inversion M; subst. eauto. Qed.

Lemma Matches_StarClass_inv p s s' :
  Matches ignoreCase (StarClass p) s s' ->
  exists w, s = w ++ s' /\ Forall (fun c => p c = true) w.
Proof. intros M. inversion M; subst. eauto. Qed.

Lemma Matches_Alt_inv r1 r2 s s' :
  Matches ignoreCase (Alt r1 r2) s s' ->
  Matches ignoreCase r1 s s' \/ Matches ignoreCase r2 s s'.
Proof. intros M. inversion M; subst; auto. Qed.

Lemma Matches_End_inv s s' :
  Matches ignoreCase EndOfInput s s' -> s = [] /\ s' = [].
Proof. intros M. inversion M; subst; auto. Qed.

(** A single class searched anywhere in the string. *)
Lemma test_Class p s :
  test ignoreCase (Class p) s = true <-> exists c, In c s /\ p c = true.
Proof.
  rewrite test_true. split.
  - intros [pre [s1 [s' [-> M]]]]. inversion M; subst.
    exists c. split; [|assumption]. apply in_or_app. right. now left.
  - intros [c [Hin Hc]]. apply in_split in Hin. destruct Hin as [l1 [l2 ->]].
    exists l1, (c :: l2), l2. split; [reflexivity | now constructor].
Qed.

End MatcherFacts.

(** ** The suspicious-pattern check *)

Lemma controlClass_spec c :
  Harden.controlClass c = true <-> Spec.isControlCharacter c.
Proof.
  unfold Harden.controlClass, Spec.isControlCharacter.
  rewrite !orb_true_iff, andb_true_iff, !N.leb_le, !N.eqb_eq. tauto.
Qed.

Lemma zeroWidthClass_spec c :
  Harden.zeroWidthClass c = true <-> Spec.isZeroWidthCharacter c.
Proof.
  unfold Harden.zeroWidthClass, Spec.isZeroWidthCharacter.
  rewrite !orb_true_iff, andb_true_iff, !N.leb_le, !N.eqb_eq. lia.
Qed.

Lemma isPlainWhitespace_isWhiteSpace c :
  Spec.isPlainWhitespace c -> isWhiteSpace c = true.
Proof. intros [-> | [-> | [-> | ->]]]; reflexivity. Qed.

Lemma protocolTokens_units :
  forallb (forallb Harden.tokenUnit) Harden.protocolTokens = true.
Proof. vm_compute. reflexivity. Qed.

Lemma unit_eqb_toLowerCase x y :
  toLowerCase_unit x = y -> unit_eqb true x y = true.
Proof.
  intros <-. unfold unit_eqb, canonicalize, toLowerCase_unit.
  apply N.eqb_eq.
  destruct ((65 <=? x) && (x <=? 90))%N eqn:U.
  - apply andb_true_iff in U. destruct U as [U1 U2].
    apply N.leb_le in U1, U2.
    replace ((97 <=? x) && (x <=? 122))%N with false
      by (symmetry; apply andb_false_iff; left; apply N.leb_gt; lia).
    replace ((97 <=? x + 32) && (x + 32 <=? 122))%N with true
      by (symmetry; apply andb_true_iff; split; apply N.leb_le; lia).
    lia.
  - reflexivity.
Qed.

Lemma toLowerCase_unit_eqb x y :
  Harden.tokenUnit y = true -> unit_eqb true x y = true -> toLowerCase_unit x = y.
Proof.
  unfold Harden.tokenUnit, unit_eqb, canonicalize, toLowerCase_unit.
  rewrite !orb_true_iff, andb_true_iff, !N.leb_le, !N.eqb_eq.
  intros Hy E.
  destruct ((97 <=? x) && (x <=? 122))%N eqn:Lx;
    destruct ((97 <=? y) && (y <=? 122))%N eqn:Ly;
    destruct ((65 <=? x) && (x <=? 90))%N eqn:Ux;
    rewrite ?andb_true_iff, ?andb_false_iff, ?N.leb_le, ?N.leb_gt in *; lia.
Qed.

Lemma LitEq_of_toLowerCase tok token :
  toLowerCase tok = token -> LitEq true tok token.
Proof.
  intros <-. induction tok as [|x tok IH]; simpl; constructor.
  - now apply unit_eqb_toLowerCase.
  - assumption.
Qed.

Lemma toLowerCase_of_LitEq tok token :
  forallb Harden.tokenUnit token = true -> LitEq true tok token ->
  toLowerCase tok = token.
Proof.
  intros Hu H. induction H as [|x y w p Hxy H IH]; simpl in *.
  - reflexivity.
  - apply andb_true_iff in Hu. destruct Hu as [Hy Hp].
    f_equal; [now apply toLowerCase_unit_eqb | now apply IH].
Qed.

Lemma malformedProtocolRegex_spec s :
  test true Harden.malformedProtocolRegex s = true <->
  Spec.hasProtocolTokenThenColon s.
Proof.
  rewrite test_true. unfold Harden.malformedProtocolRegex, Spec.hasProtocolTokenThenColon.
  split.
  - intros [pre [s1 [s' [-> M]]]].
    apply Matches_Seq_inv in M. destruct M as [s2 [M1 M2]].
    apply Matches_alternatives in M1. destruct M1 as [r [Hin M1]].
    apply in_map_iff in Hin. destruct Hin as [token [<- Hin]].
    apply Matches_Lit_inv in M1. destruct M1 as [tok [-> Htok]].
    apply Matches_Seq_inv in M2. destruct M2 as [s3 [M3 M4]].
    apply Matches_StarClass_inv in M3. destruct M3 as [ws [-> Hws]].
    apply Matches_Lit_inv in M4. destruct M4 as [colon [-> Hc]].
    assert (colon = js ":") as ->.
    { inversion Hc as [|x y w p Hxy Hw]; subst. inversion Hw; subst.
      apply (@toLowerCase_unit_eqb x 58%N) in Hxy; [|reflexivity].
      unfold toLowerCase_unit in Hxy.
      destruct ((65 <=? x) && (x <=? 90))%N eqn:Ux.
      - apply andb_true_iff in Ux. destruct Ux as [U1 U2].
        apply N.leb_le in U1, U2. lia.
      - now subst. }
    exists pre, tok, ws, s'. split; [reflexivity|]. split; [|assumption].
    assert (forallb Harden.tokenUnit token = true) as Hu.
    { pose proof protocolTokens_units as A. rewrite forallb_forall in A. auto. }
    rewrite (toLowerCase_of_LitEq Hu Htok). assumption.
  - intros [pre [tok [ws [post [-> [Hin Hws]]]]]].
    exists pre, (tok ++ ws ++ js ":" ++ post), post. split; [reflexivity|].
    apply M_Seq with (s' := ws ++ js ":" ++ post).
    + apply Matches_alternatives. exists (Lit (toLowerCase tok)). split.
      * now apply in_map.
      * constructor. now apply LitEq_of_toLowerCase.
    + apply M_Seq with (s' := js ":" ++ post).
      * now constructor.
      * constructor. repeat constructor.
Qed.

Lemma hasSuspiciousPatterns_spec s :
  Harden.hasSuspiciousPatterns s = true <->
  (exists c, In c s /\ Spec.isControlCharacter c)
  \/ (exists c, In c s /\ Spec.isZeroWidthCharacter c)
  \/ Spec.hasProtocolTokenThenColon s.
Proof.
  unfold Harden.hasSuspiciousPatterns, Harden.controlRegex, Harden.zeroWidthRegex.
  rewrite <- malformedProtocolRegex_spec.
  assert (forall p (P : code_unit -> Prop), (forall c, p c = true <-> P c) ->
            (test false (Class p) s = true <-> exists c, In c s /\ P c)) as A.
  { intros p P HP. rewrite test_Class. split; intros [c [H1 H2]]; exists c;
      (split; [assumption | now apply HP]). }
  rewrite <- (A _ _ controlClass_spec), <- (A _ _ zeroWidthClass_spec).
  destruct (test false (Class Harden.controlClass) s);
    destruct (test false (Class Harden.zeroWidthClass) s);
    destruct (test true Harden.malformedProtocolRegex s); intuition congruence.
Qed.

(** ** The transformer *)

Lemma sentinel_not_suspicious :
  Harden.hasSuspiciousPatterns incompleteLinkSentinel = false.
Proof. vm_compute. reflexivity. Qed.

Section TransformerFacts.

Variable newURL : jsstring -> option jsstring -> option URL.
Variable allowedPrefixes : list jsstring.
Variable defaultOrigin : option jsstring.

Let transform := Harden.transformUrl newURL allowedPrefixes defaultOrigin.
Let parse := Harden.parseUrl newURL defaultOrigin.
Let matches := Harden.prefixMatches newURL defaultOrigin.

(** Every way a string is accepted, and what it is returned as. *)
Lemma transformUrl_string s r :
  transform (JString s) = Some r <->
  (s = incompleteLinkSentinel /\ r = incompleteLinkSentinel)
  \/ (s <> incompleteLinkSentinel /\ s <> []
      /\ Harden.hasSuspiciousPatterns s = false
      /\ exists u,
          parse (JString s) = Some u
          /\ Harden.isDangerousProtocol (protocol u) = false
          /\ r = Harden.output (startsWith s (js "/")) u
          /\ ((exists prefix, In prefix allowedPrefixes /\ matches u prefix = true)
              \/ ((forall prefix, In prefix allowedPrefixes -> matches u prefix = false)
                  /\ In (js "*") allowedPrefixes
                  /\ (protocol u = js "https:" \/ protocol u = js "http:")))).
Proof.
  unfold transform, Harden.transformUrl. simpl truthy.
  destruct s as [|c s]; simpl negb; cbv iota.
  { split; [discriminate|]. intros [[E _] | [_ [E _]]]; [discriminate E | now elim E]. }
  unfold strictEqualsString.
  destruct (str_eqb (c :: s) incompleteLinkSentinel) eqn:Es.
  { apply str_eqb_eq in Es. split.
    - intros [= <-]. left. auto.
    - intros [[_ ->] | [N _]]; [reflexivity | contradiction]. }
  apply str_eqb_neq in Es.
  destruct (Harden.hasSuspiciousPatterns (c :: s)) eqn:Hs.
  { split; [discriminate|]. intros [[E _] | [_ [_ [E _]]]]; [contradiction | discriminate]. }
  fold parse. destruct (parse (JString (c :: s))) as [u|] eqn:Hp.
  2:{ split; [discriminate|].
      intros [[E _] | [_ [_ [_ [u [E _]]]]]]; [contradiction | discriminate]. }
  destruct (Harden.isDangerousProtocol (protocol u)) eqn:Hd.
  { split; [discriminate|].
    intros [[E _] | [_ [_ [_ [u' [E [D _]]]]]]]; [contradiction|].
    injection E as <-. congruence. }
  fold matches. unfold Harden.isPathRelativeUrl.
  destruct (existsb (matches u) allowedPrefixes) eqn:He.
  { split.
    - intros [= <-]. right. repeat (split; [easy|]). exists u.
      repeat (split; [easy|]). left. apply existsb_exists in He. exact He.
    - intros [[E _] | [_ [_ [_ [u' [E [_ [-> _]]]]]]]]; [contradiction|].
      now injection E as <-. }
  assert (forall prefix, In prefix allowedPrefixes -> matches u prefix = false) as Hnone.
  { intros prefix Hin. destruct (matches u prefix) eqn:Hm; [|reflexivity].
    assert (existsb (matches u) allowedPrefixes = true)
      by (apply existsb_exists; eauto). congruence. }
  destruct (includes allowedPrefixes (js "*")) eqn:Hw.
  - apply includes_In in Hw.
    destruct (str_eqb (protocol u) (js "https:")) eqn:P1; simpl.
    + apply str_eqb_eq in P1. split.
      * intros [= <-]. right. repeat (split; [easy|]). exists u.
        repeat (split; [easy|]). right. auto.
      * intros [[E _] | [_ [_ [_ [u' [E [_ [-> _]]]]]]]]; [contradiction|].
        now injection E as <-.
    + destruct (str_eqb (protocol u) (js "http:")) eqn:P2; simpl.
      * apply str_eqb_eq in P2. split.
        -- intros [= <-]. right. repeat (split; [easy|]). exists u.
           repeat (split; [easy|]). right. auto.
        -- intros [[E _] | [_ [_ [_ [u' [E [_ [-> _]]]]]]]]; [contradiction|].
           now injection E as <-.
      * apply str_eqb_neq in P1, P2. split; [discriminate|].
        intros [[E _] | [_ [_ [_ [u' [E [_ [_ [[p [Hin Hm]] | [_ [_ Hp']]]]]]]]]]].
        -- contradiction.
        -- injection E as <-. rewrite (Hnone _ Hin) in Hm. discriminate.
        -- injection E as <-. tauto.
  - split; [discriminate|].
    intros [[E _] | [_ [_ [_ [u' [E [_ [_ [[p [Hin Hm]] | [_ [Hin _]]]]]]]]]]].
    + contradiction.
    + injection E as <-. rewrite (Hnone _ Hin) in Hm. discriminate.
    + apply includes_In in Hin. congruence.
Qed.

Lemma transformUrl_suspicious s :
  Harden.hasSuspiciousPatterns s = true -> transform (JString s) = None.
Proof.
  intros Hs. destruct (transform (JString s)) as [r|] eqn:E; [|reflexivity].
  apply transformUrl_string in E.
  destruct E as [[-> _] | [_ [_ [Hn _]]]].
  - rewrite sentinel_not_suspicious in Hs. discriminate.
  - congruence.
Qed.

Lemma prefixMatches_spec parsedUrl prefix :
  matches parsedUrl prefix = true <->
  exists parsedPrefix,
    parse (JString prefix) = Some parsedPrefix
    /\ origin parsedPrefix = origin parsedUrl
    /\ exists rest, href parsedUrl = href parsedPrefix ++ rest.
Proof.
  unfold matches, Harden.prefixMatches. fold parse.
  destruct (parse (JString prefix)) as [pp|].
  - destruct (str_eqb (origin pp) (origin parsedUrl)) eqn:Eo; simpl.
    + apply str_eqb_eq in Eo. rewrite startsWith_app. split.
      * intros H. exists pp. auto.
      * intros [pp' [[= <-] [_ H]]]. exact H.
    + apply str_eqb_neq in Eo. split; [discriminate|].
      intros [pp' [[= <-] [H _]]]. contradiction.
  - split; [discriminate|]. intros [pp' [H _]]. discriminate.
Qed.

End TransformerFacts.

Lemma isDangerousProtocol_http p :
  p = js "https:" \/ p = js "http:" -> Harden.isDangerousProtocol p = false.
Proof. intros [-> | ->]; vm_compute; reflexivity. Qed.

Lemma startsWithToken_suspicious tok rest :
  In (toLowerCase tok) Harden.protocolTokens ->
  Harden.hasSuspiciousPatterns (tok ++ js ":" ++ rest) = true.
Proof.
  intros Hin. apply hasSuspiciousPatterns_spec. right. right.
  exists [], tok, [], rest. simpl. auto.
Qed.

(** C3: whatever the platform parser, the allowed prefixes and the default
    origin are, a string that contains a control character (0x00-0x08,
    0x0B, 0x0C, 0x0E-0x1F, 0x7F), a zero-width character (U+200B, U+200C,
    U+200D, U+FEFF) or a dangerous-protocol token followed by optional
    whitespace and a colon, in any letter case, is rejected.  The verdict
    does not depend on the parser: the check runs on the raw string. *)
Theorem C3_suspicious_input_rejected :
  forall (newURL : jsstring -> option jsstring -> option URL)
         (allowedPrefixes : list jsstring) (defaultOrigin : option jsstring)
         (s : jsstring),
    (exists c, In c s /\ Spec.isControlCharacter c)
    \/ (exists c, In c s /\ Spec.isZeroWidthCharacter c)
    \/ Spec.hasProtocolTokenThenColon s ->
    Harden.createHardenedUrlTransformer newURL allowedPrefixes defaultOrigin
      (JString s) = None.
Proof.
  intros newURL allowedPrefixes defaultOrigin s H.
  apply transformUrl_suspicious. now apply hasSuspiciousPatterns_spec.
Qed.

Lemma C3_witness :
  Spec.hasProtocolTokenThenColon (js "javascript" ++ [9%N] ++ js ":alert(1)")
  /\ Harden.createHardenedUrlTransformer WhatwgUrl.newURL [js "*"] None
       (JString (js "javascript" ++ [9%N] ++ js ":alert(1)")) = None.
Proof.
  assert (Spec.hasProtocolTokenThenColon (js "javascript" ++ [9%N] ++ js ":alert(1)")) as H.
  { exists [], (js "javascript"), [9%N], (js "alert(1)").
    split; [reflexivity|]. split.
    - apply includes_In. vm_compute. reflexivity.
    - repeat constructor. }
  split; [exact H|].
  apply (C3_suspicious_input_rejected WhatwgUrl.newURL [js "*"] None).
  right. right. exact H.
Defined.

(** C10: a dangerous-protocol token followed by optional whitespace and a
    colon anywhere in the input is rejected under every configuration,
    also inside the path of a URL whose origin and prefix are allowed:
    [https://example.com/hotel:info] is rejected under the allowed prefix
    [https://example.com/] because of the substring [tel:], although it
    parses with protocol [https:] and matches the prefix. *)
Theorem C10_protocol_token_in_path_rejected :
  (forall (newURL : jsstring -> option jsstring -> option URL)
          (allowedPrefixes : list jsstring) (defaultOrigin : option jsstring)
          (s : jsstring),
      Spec.hasProtocolTokenThenColon s ->
      Harden.createHardenedUrlTransformer newURL allowedPrefixes defaultOrigin
        (JString s) = None)
  /\ (forall (newURL : jsstring -> option jsstring -> option URL)
             (allowedPrefixes : list jsstring) (defaultOrigin : option jsstring),
         Harden.createHardenedUrlTransformer newURL allowedPrefixes defaultOrigin
           (JString (js "https://example.com/hotel:info")) = None)
  /\ (forall defaultOrigin : option jsstring,
        exists parsedUrl,
          Harden.parseUrl WhatwgUrl.newURL defaultOrigin
            (JString (js "https://example.com/hotel:info")) = Some parsedUrl
          /\ protocol parsedUrl = js "https:"
          /\ Harden.isDangerousProtocol (protocol parsedUrl) = false
          /\ Harden.prefixMatches WhatwgUrl.newURL defaultOrigin parsedUrl
               (js "https://example.com/") = true).
Proof.
  assert (forall newURL allowedPrefixes defaultOrigin s,
             Spec.hasProtocolTokenThenColon s ->
             Harden.createHardenedUrlTransformer newURL allowedPrefixes defaultOrigin
               (JString s) = None) as General.
  { intros. apply transformUrl_suspicious. apply hasSuspiciousPatterns_spec. auto. }
  split; [exact General|]. split.
  - intros. apply General.
    exists (js "https://example.com/ho"), (js "tel"), [], (js "info").
    split; [reflexivity|]. split; [|constructor].
    apply includes_In. vm_compute. reflexivity.
  - intros defaultOrigin. eexists. split; [vm_compute; reflexivity|].
    repeat split; vm_compute; reflexivity.
Qed.

Lemma C10_witness :
  Spec.hasProtocolTokenThenColon (js "https://example.com/hotel:info")
  /\ Harden.createHardenedUrlTransformer WhatwgUrl.newURL
       [js "https://example.com/"] (Some (js "https://example.com"))
       (JString (js "https://example.com/hotel:info")) = None.
Proof.
  assert (Spec.hasProtocolTokenThenColon (js "https://example.com/hotel:info")) as H.
  { exists (js "https://example.com/ho"), (js "tel"), [], (js "info").
    split; [reflexivity|]. split; [|constructor].
    apply includes_In. vm_compute. reflexivity. }
  split; [exact H|].
  exact (proj1 C10_protocol_token_in_path_rejected WhatwgUrl.newURL
           [js "https://example.com/"] (Some (js "https://example.com")) _ H).
Defined.

(** The wildcard branch on its own: when the allowed prefixes contain
    ["*"] and no entry of the list, ["*"] included, matched as a prefix, a
    candidate is accepted exactly when it is not suspicious, it parses, and
    its parsed protocol is [https:] or [http:]; the transformer built from
    [["*"]] rejects [javascript:alert(1)], every [data:text/html,...] and
    [file:///etc/passwd]. *)
Lemma wildcard_branch_spec :
  (forall (newURL : jsstring -> option jsstring -> option URL)
          (allowedPrefixes : list jsstring) (defaultOrigin : option jsstring)
          (s r : jsstring),
      In (js "*") allowedPrefixes ->
      s <> incompleteLinkSentinel ->
      (forall u prefix,
          Harden.parseUrl newURL defaultOrigin (JString s) = Some u ->
          In prefix allowedPrefixes ->
          Harden.prefixMatches newURL defaultOrigin u prefix = false) ->
      (Harden.createHardenedUrlTransformer newURL allowedPrefixes defaultOrigin
         (JString s) = Some r
       <-> s <> [] /\ Harden.hasSuspiciousPatterns s = false
           /\ exists u,
               Harden.parseUrl newURL defaultOrigin (JString s) = Some u
               /\ (protocol u = js "https:" \/ protocol u = js "http:")
               /\ r = Harden.output (startsWith s (js "/")) u))
  /\ (forall (newURL : jsstring -> option jsstring -> option URL)
             (defaultOrigin : option jsstring),
         let transformer :=
           Harden.createHardenedUrlTransformer newURL [js "*"] defaultOrigin in
         transformer (JString (js "javascript:alert(1)")) = None
         /\ (forall rest, transformer (JString (js "data:text/html," ++ rest)) = None)
         /\ transformer (JString (js "file:///etc/passwd")) = None).
Proof.
  split.
  - intros newURL allowedPrefixes defaultOrigin s r Hstar Hs Hnone.
    unfold Harden.createHardenedUrlTransformer. rewrite transformUrl_string. split.
    + intros [[E _] | [_ [Hne [Hsus [u [Hp [Hd [Hr [[p [Hin Hm]] | [_ [_ Hproto]]]]]]]]]]].
      * contradiction.
      * rewrite (Hnone _ _ Hp Hin) in Hm. discriminate.
      * repeat (split; [assumption|]). exists u. auto.
    + intros [Hne [Hsus [u [Hp [Hproto Hr]]]]]. right.
      repeat (split; [assumption|]). exists u.
      split; [assumption|]. split; [now apply isDangerousProtocol_http|].
      split; [assumption|]. right. split; [|auto]. intros p Hin.
      eapply Hnone; eassumption.
  - intros newURL defaultOrigin transformer. subst transformer.
    unfold Harden.createHardenedUrlTransformer.
    split; [|split; [intros rest|]]; apply transformUrl_suspicious.
    + apply (startsWithToken_suspicious (js "javascript") (js "alert(1)")).
      apply includes_In. vm_compute. reflexivity.
    + apply (startsWithToken_suspicious (js "data") (js "text/html," ++ rest)).
      apply includes_In. vm_compute. reflexivity.
    + apply (startsWithToken_suspicious (js "file") (js "///etc/passwd")).
      apply includes_In. vm_compute. reflexivity.
Qed.

Lemma wildcard_branch_example :
  In (js "*") [js "*"]
  /\ js "https://example.com/test" <> incompleteLinkSentinel
  /\ (Harden.createHardenedUrlTransformer WhatwgUrl.newURL [js "*"] None
        (JString (js "https://example.com/test")) = Some (js "https://example.com/test")
      <-> js "https://example.com/test" <> []
          /\ Harden.hasSuspiciousPatterns (js "https://example.com/test") = false
          /\ exists u,
              Harden.parseUrl WhatwgUrl.newURL None
                (JString (js "https://example.com/test")) = Some u
              /\ (protocol u = js "https:" \/ protocol u = js "http:")
              /\ js "https://example.com/test"
                 = Harden.output (startsWith (js "https://example.com/test") (js "/")) u).
Proof.
  split; [now left|]. split; [discriminate|].
  apply (proj1 wildcard_branch_spec WhatwgUrl.newURL [js "*"] None).
  - now left.
  - discriminate.
  - intros u prefix Hp [<- | []]. vm_compute in Hp. injection Hp as <-.
    vm_compute. reflexivity.
Defined.

(** C2: the loop over the allowed prefixes does not skip the wildcard, so
    ["*"] is itself tried as a prefix.  With the allowed prefixes [["*"]]
    and the default origin [git://host], ["*"] does not parse on its own
    and resolves against the default origin to [git://host/*]; the
    candidate [git://host/*abc] has the same origin and an href that
    starts with it, and is returned although no specific prefix is
    configured and its parsed protocol is [git:], neither [https:] nor
    [http:]. *)
Theorem C2_wildcard_entry_accepts_git :
  let defaultOrigin := Some (js "git://host") in
  let transformer :=
    Harden.createHardenedUrlTransformer WhatwgUrl.newURL [js "*"] defaultOrigin in
  transformer (JString (js "git://host/*abc")) = Some (js "git://host/*abc")
  /\ exists u prefix,
       Harden.parseUrl WhatwgUrl.newURL defaultOrigin (JString (js "git://host/*abc"))
       = Some u
       /\ protocol u = js "git:"
       /\ protocol u <> js "https:" /\ protocol u <> js "http:"
       /\ WhatwgUrl.newURL (js "*") None = None
       /\ Harden.parseUrl WhatwgUrl.newURL defaultOrigin (JString (js "*")) = Some prefix
       /\ href prefix = js "git://host/*"
       /\ origin prefix = origin u
       /\ Harden.prefixMatches WhatwgUrl.newURL defaultOrigin u (js "*") = true.
Proof.
  cbv zeta. split; [vm_compute; reflexivity|].
  destruct (Harden.parseUrl WhatwgUrl.newURL (Some (js "git://host"))
              (JString (js "git://host/*abc"))) as [u|] eqn:Eu;
    [|vm_compute in Eu; discriminate Eu].
  destruct (Harden.parseUrl WhatwgUrl.newURL (Some (js "git://host"))
              (JString (js "*"))) as [prefix|] eqn:Ep;
    [|vm_compute in Ep; discriminate Ep].
  exists u, prefix. vm_compute in Eu, Ep.
  injection Eu as <-. injection Ep as <-.
  repeat split; try (vm_compute; reflexivity); vm_compute; discriminate.
Qed.

(** C1: a parsed candidate is accepted under a prefix exactly when the
    prefix parses, both origins are equal and the candidate's normalized
    href starts with the prefix's normalized href; without the wildcard a
    string is accepted exactly when some allowed prefix accepts it this
    way.  With the allowed prefix [https://prefix.com/prefix/],
    [https://prefix.com/prefix/allowed.jpg] is returned unchanged while
    [https://prefix.com/other/file.jpg] and
    [https://prefix.com/prefix/../other/file.jpg] are rejected; with
    [https://example.com/], [https://example.com/../../../evil.com/malware]
    is returned as [https://example.com/evil.com/malware]. *)
Theorem C1_prefix_acceptance :
  (forall (newURL : jsstring -> option jsstring -> option URL)
          (defaultOrigin : option jsstring) (parsedUrl : URL) (prefix : jsstring),
      Harden.prefixMatches newURL defaultOrigin parsedUrl prefix = true
      <-> exists parsedPrefix,
            Harden.parseUrl newURL defaultOrigin (JString prefix) = Some parsedPrefix
            /\ origin parsedPrefix = origin parsedUrl
            /\ exists rest, href parsedUrl = href parsedPrefix ++ rest)
  /\ (forall (newURL : jsstring -> option jsstring -> option URL)
             (allowedPrefixes : list jsstring) (defaultOrigin : option jsstring)
             (s r : jsstring),
         ~ In (js "*") allowedPrefixes ->
         s <> incompleteLinkSentinel ->
         (Harden.createHardenedUrlTransformer newURL allowedPrefixes defaultOrigin
            (JString s) = Some r
          <-> s <> [] /\ Harden.hasSuspiciousPatterns s = false
              /\ exists u,
                  Harden.parseUrl newURL defaultOrigin (JString s) = Some u
                  /\ Harden.isDangerousProtocol (protocol u) = false
                  /\ r = Harden.output (startsWith s (js "/")) u
                  /\ exists prefix parsedPrefix,
                      In prefix allowedPrefixes
                      /\ Harden.parseUrl newURL defaultOrigin (JString prefix)
                         = Some parsedPrefix
                      /\ origin parsedPrefix = origin u
                      /\ exists rest, href u = href parsedPrefix ++ rest))
  /\ (forall defaultOrigin : option jsstring,
        let transformer :=
          Harden.createHardenedUrlTransformer WhatwgUrl.newURL
            [js "https://prefix.com/prefix/"] defaultOrigin in
        transformer (JString (js "https://prefix.com/prefix/allowed.jpg"))
        = Some (js "https://prefix.com/prefix/allowed.jpg")
        /\ transformer (JString (js "https://prefix.com/other/file.jpg")) = None
        /\ transformer (JString (js "https://prefix.com/prefix/../other/file.jpg"))
           = None)
  /\ (forall defaultOrigin : option jsstring,
        Harden.createHardenedUrlTransformer WhatwgUrl.newURL
          [js "https://example.com/"] defaultOrigin
          (JString (js "https://example.com/../../../evil.com/malware"))
        = Some (js "https://example.com/evil.com/malware")).
Proof.
  split; [intros; apply prefixMatches_spec|]. split.
  - intros newURL allowedPrefixes defaultOrigin s r Hstar Hs.
    unfold Harden.createHardenedUrlTransformer. rewrite transformUrl_string. split.
    + intros [[E _] | [_ [Hne [Hsus [u [Hp [Hd [Hr [[p [Hin Hm]] | [_ [Hin _]]]]]]]]]]].
      * contradiction.
      * repeat (split; [assumption|]). exists u. repeat (split; [assumption|]).
        apply prefixMatches_spec in Hm. destruct Hm as [pp Hpp].
        exists p, pp. tauto.
      * contradiction.
    + intros [Hne [Hsus [u [Hp [Hd [Hr [p [pp [Hin Hpp]]]]]]]]]. right.
      repeat (split; [assumption|]). exists u. repeat (split; [assumption|]).
      left. exists p. split; [assumption|]. apply prefixMatches_spec. eauto.
  - split; [|intros defaultOrigin; vm_compute; reflexivity].
    intros defaultOrigin. repeat split; vm_compute; reflexivity.
Qed.

Lemma C1_witness :
  ~ In (js "*") [js "https://prefix.com/prefix/"]
  /\ js "https://prefix.com/prefix/allowed.jpg" <> incompleteLinkSentinel
  /\ exists u prefix parsedPrefix,
       Harden.parseUrl WhatwgUrl.newURL None
         (JString (js "https://prefix.com/prefix/allowed.jpg")) = Some u
       /\ In prefix [js "https://prefix.com/prefix/"]
       /\ Harden.parseUrl WhatwgUrl.newURL None (JString prefix) = Some parsedPrefix
       /\ origin parsedPrefix = origin u
       /\ exists rest, href u = href parsedPrefix ++ rest.
Proof.
  assert (~ In (js "*") [js "https://prefix.com/prefix/"]) as Hstar
    by (intros [H | []]; discriminate H).
  assert (js "https://prefix.com/prefix/allowed.jpg" <> incompleteLinkSentinel) as Hs
    by discriminate.
  split; [exact Hstar|]. split; [exact Hs|].
  assert (Harden.createHardenedUrlTransformer WhatwgUrl.newURL
            [js "https://prefix.com/prefix/"] None
            (JString (js "https://prefix.com/prefix/allowed.jpg"))
          = Some (js "https://prefix.com/prefix/allowed.jpg")) as Hrun
    by (vm_compute; reflexivity).
  apply (proj1 (proj1 (proj2 C1_prefix_acceptance) WhatwgUrl.newURL
                  [js "https://prefix.com/prefix/"] None _ _ Hstar Hs)) in Hrun.
  destruct Hrun as [_ [_ [u [Hp [_ [_ [prefix [pp H]]]]]]]].
  exists u, prefix, pp. tauto.
Defined.

(** ** The block merge loop *)

Lemma LitEq_false_eq w p : LitEq false w p <-> w = p.
Proof.
  split.
  - induction 1 as [|x y w p Hxy H IH]; [reflexivity|].
    simpl in Hxy. apply N.eqb_eq in Hxy. now subst.
  - intros <-. induction w as [|x w IH]; constructor; [apply N.eqb_refl | assumption].
Qed.

Lemma endsWith_app s p : endsWith s p = true <-> exists r, s = r ++ p.
Proof.
  unfold endsWith. rewrite startsWith_app. split.
  - intros [r Hr]. exists (rev r).
    rewrite <- (rev_involutive s), Hr, rev_app_distr, rev_involutive. reflexivity.
  - intros [r ->]. exists (rev r). apply rev_app_distr.
Qed.

Lemma Matches_blockKatexShape d s s' :
  Matches false (ParseBlocks.blockKatexShape d) s s' <->
  exists body,
    (s = d ++ ParseBlocks.newline ++ body ++ ParseBlocks.newline ++ d /\ s' = [])
    \/ s = d ++ ParseBlocks.newline ++ body ++ ParseBlocks.newline ++ d
           ++ ParseBlocks.newline ++ s'.
Proof.
  unfold ParseBlocks.blockKatexShape. split.
  - intros M.
    apply Matches_Seq_inv in M. destruct M as [s1 [M1 M]].
    apply Matches_Lit_inv in M1. destruct M1 as [w1 [-> E1]]. apply LitEq_false_eq in E1.
    apply Matches_Seq_inv in M. destruct M as [s2 [M2 M]].
    apply Matches_Lit_inv in M2. destruct M2 as [w2 [-> E2]]. apply LitEq_false_eq in E2.
    apply Matches_Seq_inv in M. destruct M as [s3 [M3 M]].
    apply Matches_StarClass_inv in M3. destruct M3 as [body [-> _]].
    apply Matches_Seq_inv in M. destruct M as [s4 [M4 M]].
    apply Matches_Lit_inv in M4. destruct M4 as [w4 [-> E4]]. apply LitEq_false_eq in E4.
    apply Matches_Seq_inv in M. destruct M as [s5 [M5 M]].
    apply Matches_Lit_inv in M5. destruct M5 as [w5 [-> E5]]. apply LitEq_false_eq in E5.
    subst. exists body. apply Matches_Alt_inv in M. destruct M as [M | M].
    + apply Matches_Lit_inv in M. destruct M as [w6 [-> E6]].
      apply LitEq_false_eq in E6. subst. right. reflexivity.
    + apply Matches_End_inv in M. destruct M as [-> ->]. left.
      rewrite !app_nil_r. auto.
  - intros [body H].
    assert (forall w t, Matches false (Lit w) (w ++ t) t) as L
      by (intros; constructor; now apply LitEq_false_eq).
    assert (forall t, Matches false (StarClass ParseBlocks.anyUnit) (body ++ t) t) as St.
    { intros t. constructor. apply Forall_forall. reflexivity. }
    destruct H as [[-> ->] | ->].
    + do 4 (eapply M_Seq; [apply L || apply St|]).
      apply M_Seq with (s' := []).
      * pose proof (L d []) as X. rewrite app_nil_r in X. exact X.
      * apply M_AltR. constructor.
    + do 5 (eapply M_Seq; [apply L || apply St|]).
      apply M_AltL. apply L.
Qed.

Lemma testBlockKatex_spec s :
  ParseBlocks.testBlockKatex s = true <-> Spec.blockMathShape s.
Proof.
  unfold ParseBlocks.testBlockKatex, testAnchored, ParseBlocks.blockKatexRegex,
    Spec.blockMathShape.
  rewrite matchAt_true. split.
  - intros [s' [M _]]. apply Matches_Alt_inv in M.
    destruct M as [M | M]; apply Matches_blockKatexShape in M;
      destruct M as [body [[-> ->] | ->]].
    + exists (js "$$"), body, [].
      split; [auto | split; [now rewrite app_nil_r | auto]].
    + exists (js "$$"), body, (ParseBlocks.newline ++ s').
      split; [auto | split; [reflexivity | right; eauto]].
    + exists (js "$"), body, [].
      split; [auto | split; [now rewrite app_nil_r | auto]].
    + exists (js "$"), body, (ParseBlocks.newline ++ s').
      split; [auto | split; [reflexivity | right; eauto]].
  - intros [d [body [rest [Hd [-> Hrest]]]]].
    assert (exists s', Matches false (ParseBlocks.blockKatexShape d)
                         (d ++ ParseBlocks.newline ++ body ++ ParseBlocks.newline
                            ++ d ++ rest) s') as [s' M].
    { destruct Hrest as [-> | [r ->]].
      - exists []. apply Matches_blockKatexShape. exists body. left.
        rewrite app_nil_r. auto.
      - exists r. apply Matches_blockKatexShape. exists body. right. reflexivity. }
    exists s'. split; [|reflexivity].
    destruct Hd as [-> | ->]; [now apply M_AltL | now apply M_AltR].
Qed.

Lemma atLast_app blocks previousBlock :
  ParseBlocks.atLast blocks = Some previousBlock ->
  blocks = removelast blocks ++ [previousBlock].
Proof.
  unfold ParseBlocks.atLast. destruct (rev blocks) as [|b l] eqn:E; [discriminate|].
  intros [= <-]. apply (f_equal (@rev _)) in E. rewrite rev_involutive in E.
  simpl in E. subst blocks. now rewrite removelast_last.
Qed.

Lemma setLast_neq_push blocks candidate block :
  blocks <> [] ->
  ParseBlocks.setLast blocks candidate <> ParseBlocks.push blocks block.
Proof.
  intros Hne E. apply (f_equal (@List.length _)) in E.
  unfold ParseBlocks.setLast, ParseBlocks.push in E.
  rewrite !length_app, removelast_firstn_len, length_firstn in E.
  destruct blocks; [contradiction | simpl in E; lia].
Qed.

Lemma odd_of_mod2 n : (n mod 2 =? 1)%nat = true -> Nat.Odd n.
Proof.
  intros H. apply Nat.eqb_eq in H. exists (n / 2)%nat.
  pose proof (Nat.div_mod_eq n 2). lia.
Qed.

Section MergeFacts.

Variables (mergedBlocks : list jsstring) (previousBlock : jsstring).
Hypothesis Hlast : ParseBlocks.atLast mergedBlocks = Some previousBlock.
Hypothesis Hnonempty : previousBlock <> [].

Let mergeChecked := Spec.mergeChecked previousBlock.

Lemma mergeStandaloneClosing_cases currentBlock :
  (ParseBlocks.mergeStandaloneClosing mergedBlocks currentBlock
   = Some (ParseBlocks.setLast mergedBlocks (previousBlock ++ currentBlock))
   /\ mergeChecked currentBlock)
  \/ ParseBlocks.mergeStandaloneClosing mergedBlocks currentBlock = None.
Proof.
  unfold ParseBlocks.mergeStandaloneClosing. rewrite Hlast.
  destruct (str_eqb (trim currentBlock) (js "$$")) eqn:Ht; cbn [andb negb]; [|now right].
  destruct (0 <? List.length mergedBlocks)%nat; [|now right].
  destruct previousBlock as [|c p]; [contradiction|].
  cbv beta iota zeta. set (prev := c :: p) in *.
  destruct (startsWith (trimStart prev) (js "$$")) eqn:Hs; cbn [andb negb]; [|now right].
  destruct (ParseBlocks.dollarCount prev mod 2 =? 1)%nat eqn:Ho; [|now right].
  destruct (ParseBlocks.testBlockKatex (trim (prev ++ currentBlock))) eqn:Hk;
    [|now right].
  left. split; [reflexivity|]. unfold mergeChecked, Spec.mergeChecked.
  split; [|split].
  - split; [now apply startsWith_app | now apply odd_of_mod2].
  - left. now apply str_eqb_eq.
  - now apply testBlockKatex_spec.
Qed.

Lemma mergeClosingSuffix_cases currentBlock :
  (ParseBlocks.mergeClosingSuffix mergedBlocks currentBlock
   = Some (ParseBlocks.setLast mergedBlocks (previousBlock ++ currentBlock))
   /\ mergeChecked currentBlock)
  \/ ParseBlocks.mergeClosingSuffix mergedBlocks currentBlock = None.
Proof.
  unfold ParseBlocks.mergeClosingSuffix. rewrite Hlast.
  destruct (0 <? List.length mergedBlocks)%nat; cbn [andb negb]; [|now right].
  destruct (endsWith (trimEnd currentBlock) (js "$$")) eqn:He; [|now right].
  destruct previousBlock as [|c p]; [contradiction|].
  cbv beta iota zeta. set (prev := c :: p) in *.
  destruct (startsWith (trimStart prev) (js "$$")) eqn:Hs; cbn [andb negb]; [|now right].
  destruct (ParseBlocks.dollarCount prev mod 2 =? 1)%nat eqn:Ho; cbn [andb negb];
    [|now right].
  destruct (startsWith (trimStart currentBlock) (js "$$")); cbn [andb negb]; [now right|].
  destruct (ParseBlocks.dollarCount currentBlock =? 1)%nat; [|now right].
  destruct (ParseBlocks.testBlockKatex (trim (prev ++ currentBlock))) eqn:Hk;
    [|now right].
  left. split; [reflexivity|]. unfold mergeChecked, Spec.mergeChecked.
  split; [|split].
  - split; [now apply startsWith_app | now apply odd_of_mod2].
  - right. now apply endsWith_app.
  - now apply testBlockKatex_spec.
Qed.

Lemma mergeStep_cases currentMeta :
  (ParseBlocks.mergeStep mergedBlocks currentMeta
   = ParseBlocks.setLast mergedBlocks (previousBlock ++ ParseBlocks.raw currentMeta)
   /\ mergeChecked (ParseBlocks.raw currentMeta))
  \/ ParseBlocks.mergeStep mergedBlocks currentMeta
     = ParseBlocks.push mergedBlocks (ParseBlocks.raw currentMeta).
Proof.
  unfold ParseBlocks.mergeStep.
  destruct (ParseBlocks.isKatexType (ParseBlocks.type currentMeta)); [now right|].
  destruct (mergeStandaloneClosing_cases (ParseBlocks.raw currentMeta))
    as [[-> H] | ->]; [now left|].
  destruct (mergeClosingSuffix_cases (ParseBlocks.raw currentMeta))
    as [[-> H] | ->]; [now left | now right].
Qed.

End MergeFacts.

(** The first block is always kept as it is. *)
Lemma mergeStep_first currentMeta :
  ParseBlocks.mergeStep [] currentMeta = [ParseBlocks.raw currentMeta].
Proof.
  unfold ParseBlocks.mergeStep, ParseBlocks.mergeStandaloneClosing,
    ParseBlocks.mergeClosingSuffix.
  destruct (ParseBlocks.isKatexType (ParseBlocks.type currentMeta)); [reflexivity|].
  cbn [List.length Nat.ltb Nat.leb]. rewrite andb_false_r. reflexivity.
Qed.

(** A document of two blocks: the second is merged into the first, or
    both are kept. *)
Lemma mergeBlocks_two first second :
  ParseBlocks.raw first <> [] ->
  (ParseBlocks.mergeBlocks [first; second]
   = [ParseBlocks.raw first ++ ParseBlocks.raw second]
   /\ Spec.mergeChecked (ParseBlocks.raw first) (ParseBlocks.raw second))
  \/ ParseBlocks.mergeBlocks [first; second]
     = [ParseBlocks.raw first; ParseBlocks.raw second].
Proof.
  intros Hne. unfold ParseBlocks.mergeBlocks. simpl fold_left.
  rewrite mergeStep_first.
  destruct (@mergeStep_cases [ParseBlocks.raw first] (ParseBlocks.raw first)
              eq_refl Hne second) as [[E H] | E]; rewrite E; [left | right]; auto.
Qed.

(** The guard [if (!previousBlock) continue] also fires on an empty
    previous block: a standalone closing delimiter is then dropped.  The
    lexer never produces an empty block. *)
Lemma mergeStep_previous_empty mergedBlocks currentMeta :
  ParseBlocks.atLast mergedBlocks = Some [] ->
  ParseBlocks.isKatexType (ParseBlocks.type currentMeta) = false ->
  trim (ParseBlocks.raw currentMeta) = js "$$" ->
  ParseBlocks.mergeStep mergedBlocks currentMeta = mergedBlocks.
Proof.
  intros Hlast Hk Ht.
  unfold ParseBlocks.mergeStep, ParseBlocks.mergeStandaloneClosing.
  rewrite Hk, Ht, Hlast.
  destruct mergedBlocks as [|b l]; [discriminate Hlast|]. reflexivity.
Qed.

(** C4: in the merge loop, with [previousBlock] the last block kept so far
    (a block of the lexer, hence not empty), the current block is either
    merged into it by concatenation or pushed after it, both unmodified.
    It is merged only when the previous block opens block math without
    closing it (starts with [$$], odd delimiter count), the current block
    is a standalone [$$] or ends with [$$], and the trimmed concatenation
    has the block-math shape; when the concatenation does not have that
    shape the two blocks stay separate. *)
Theorem C4_merge_only_validated_block_math :
  forall (mergedBlocks : list jsstring) (previousBlock : jsstring)
         (currentMeta : ParseBlocks.TokenMeta),
    ParseBlocks.atLast mergedBlocks = Some previousBlock ->
    previousBlock <> [] ->
    let currentBlock := ParseBlocks.raw currentMeta in
    let candidate := previousBlock ++ currentBlock in
    let merged := removelast mergedBlocks ++ [candidate] in
    let separate := removelast mergedBlocks ++ [previousBlock; currentBlock] in
    (ParseBlocks.mergeStep mergedBlocks currentMeta = merged
     \/ ParseBlocks.mergeStep mergedBlocks currentMeta = separate)
    /\ (ParseBlocks.mergeStep mergedBlocks currentMeta = merged ->
        Spec.opensBlockMath previousBlock
        /\ Spec.closesBlockMath currentBlock
        /\ Spec.blockMathShape (trim candidate))
    /\ (~ Spec.blockMathShape (trim candidate) ->
        ParseBlocks.mergeStep mergedBlocks currentMeta = separate).
Proof.
  intros mergedBlocks previousBlock currentMeta Hlast Hne. cbv zeta.
  set (currentBlock := ParseBlocks.raw currentMeta).
  set (merged := removelast mergedBlocks ++ [previousBlock ++ currentBlock]).
  set (separate := removelast mergedBlocks ++ [previousBlock; currentBlock]).
  assert (ParseBlocks.push mergedBlocks currentBlock = separate) as Epush.
  { unfold ParseBlocks.push, separate.
    rewrite (atLast_app _ Hlast) at 1. now rewrite <- app_assoc. }
  assert (merged <> separate) as Hdiff.
  { rewrite <- Epush. apply setLast_neq_push.
    intros ->. discriminate Hlast. }
  destruct (@mergeStep_cases mergedBlocks previousBlock Hlast Hne currentMeta)
    as [[E H] | E].
  - change (ParseBlocks.mergeStep mergedBlocks currentMeta = merged) in E.
    split; [now left|]. split; [intros _; exact H|].
    intros Hn. destruct H as [_ [_ H]]. contradiction.
  - change (ParseBlocks.mergeStep mergedBlocks currentMeta
            = ParseBlocks.push mergedBlocks currentBlock) in E.
    rewrite Epush in E.
    split; [now right|]. split; [|intros _; exact E].
    intros E'. rewrite E in E'. symmetry in E'. contradiction.
Qed.

Lemma C4_witness :
  let mergedBlocks := [js "$$" ++ [10%N] ++ js "x =" ++ [10%N]] in
  let currentMeta :=
    ParseBlocks.mkTokenMeta (js "$$") (js "paragraph")
      (ParseBlocks.mkToken (Some (js "$$")) (Some (js "$$")) (Some (js "paragraph"))) in
  ParseBlocks.atLast mergedBlocks = Some (js "$$" ++ [10%N] ++ js "x =" ++ [10%N])
  /\ js "$$" ++ [10%N] ++ js "x =" ++ [10%N] <> []
  /\ ParseBlocks.mergeStep mergedBlocks currentMeta
     = [js "$$" ++ [10%N] ++ js "x =" ++ [10%N] ++ js "$$"]
  /\ Spec.blockMathShape (trim (js "$$" ++ [10%N] ++ js "x =" ++ [10%N] ++ js "$$")).
Proof.
  intros mergedBlocks currentMeta.
  assert (ParseBlocks.atLast mergedBlocks = Some (js "$$" ++ [10%N] ++ js "x =" ++ [10%N]))
    as Hlast by reflexivity.
  assert (js "$$" ++ [10%N] ++ js "x =" ++ [10%N] <> []) as Hne by discriminate.
  split; [exact Hlast|]. split; [exact Hne|].
  assert (ParseBlocks.mergeStep mergedBlocks currentMeta
          = [js "$$" ++ [10%N] ++ js "x =" ++ [10%N] ++ js "$$"]) as Hrun
    by (vm_compute; reflexivity).
  split; [exact Hrun|].
  exact (proj2 (proj2 (proj1 (proj2
    (C4_merge_only_validated_block_math mergedBlocks currentMeta Hlast Hne)) Hrun))).
Defined.

(** ** The token cache *)

Lemma makeCacheKey_inj markdown flag markdown' flag' :
  ParseBlocks.makeCacheKey markdown flag = ParseBlocks.makeCacheKey markdown' flag' ->
  markdown = markdown' /\ flag = flag'.
Proof.
  unfold ParseBlocks.makeCacheKey. intros E.
  apply (f_equal (@rev _)) in E. rewrite !rev_app_distr in E.
  destruct flag, flag'; simpl in E; try discriminate E.
  - injection E as E. apply (f_equal (@rev _)) in E.
    rewrite !rev_involutive in E. auto.
  - injection E as E. apply (f_equal (@rev _)) in E.
    rewrite !rev_involutive in E. auto.
Qed.

(** The cache changes nothing in what the function returns: on a sound
    cache the result is what tokenizing yields, and the cache stays sound. *)
Lemma parseMarkdownIntoTokens_cache lexer repair tokenCache markdown flag :
  Spec.cacheSound lexer repair tokenCache ->
  fst (ParseBlocks.parseMarkdownIntoTokens lexer repair tokenCache markdown flag)
  = ParseBlocks.tokenize lexer repair markdown flag
  /\ Spec.cacheSound lexer repair
       (snd (ParseBlocks.parseMarkdownIntoTokens lexer repair tokenCache markdown flag)).
Proof.
  intros Hsound. unfold ParseBlocks.parseMarkdownIntoTokens.
  destruct (ParseBlocks.cacheGet tokenCache (ParseBlocks.makeCacheKey markdown flag))
    as [cached|] eqn:Hget; cbn [fst snd].
  - split; [|assumption]. clear - Hsound Hget.
    induction Hsound as [|[k tokens] rest Hentry Hrest IH]; [discriminate|].
    simpl in Hget. destruct (str_eqb k (ParseBlocks.makeCacheKey markdown flag)) eqn:Ek.
    + injection Hget as <-. apply str_eqb_eq in Ek.
      destruct Hentry as [m [f [Hk Hv]]]. cbn [fst snd] in *. subst k.
      apply makeCacheKey_inj in Ek. destruct Ek as [-> ->]. assumption.
    + now apply IH.
  - split; [reflexivity|]. unfold ParseBlocks.cacheSet, Spec.cacheSound.
    apply Forall_app. split.
    + destruct (ParseBlocks.MAX_CACHE_SIZE <=? List.length tokenCache)%nat;
        [|assumption].
      unfold ParseBlocks.cacheDeleteFirst.
      destruct tokenCache as [|[[|c k] tokens] rest]; try assumption.
      now inversion Hsound.
    + constructor; [|constructor]. now exists markdown, flag.
Qed.

(** ** The link rule of the repairer and the sentinel *)

Lemma splitLast_app c before after :
  IncompleteMarkdown.occurs c after = false ->
  IncompleteMarkdown.splitLast c (before ++ c :: after) = Some (before, after).
Proof.
  intros Hno.
  assert (IncompleteMarkdown.splitLast c after = None) as Hafter.
  { induction after as [|x after IH]; [reflexivity|]. simpl in *.
    apply orb_false_iff in Hno. destruct Hno as [Hx Hno].
    rewrite (IH Hno). rewrite N.eqb_sym, Hx. reflexivity. }
  induction before as [|x before IH]; simpl.
  - rewrite Hafter, N.eqb_refl. reflexivity.
  - rewrite IH. reflexivity.
Qed.

Lemma splitFirst_none c s :
  IncompleteMarkdown.occurs c s = false -> IncompleteMarkdown.splitFirst c s = None.
Proof.
  induction s as [|x s IH]; [reflexivity|]. simpl. intros Hno.
  apply orb_false_iff in Hno. destruct Hno as [Hx Hno].
  rewrite N.eqb_sym, Hx, (IH Hno). reflexivity.
Qed.



(** An opener [[text] that is never closed is completed with the sentinel. *)
Lemma repairIncompleteLink_open_text before text :
  endsWith before (js "!") = false ->
  IncompleteMarkdown.occurs IncompleteMarkdown.openBracket text = false ->
  IncompleteMarkdown.occurs IncompleteMarkdown.closeBracket text = false ->
  IncompleteMarkdown.repairIncompleteLink (before ++ js "[" ++ text)
  = before ++ js "[" ++ text ++ IncompleteMarkdown.incompleteLinkTarget.
Proof.
  intros Himg Hopen Hclose. unfold IncompleteMarkdown.repairIncompleteLink.
  change (js "[" ++ text) with (91%N :: text).
  unfold IncompleteMarkdown.openBracket at 1.
  rewrite splitLast_app by exact Hopen. rewrite Himg.
  rewrite splitFirst_none by exact Hclose.
  now rewrite <- app_assoc.
Qed.


Lemma transformUrl_sentinel newURL allowedPrefixes defaultOrigin :
  Harden.transformUrl newURL allowedPrefixes defaultOrigin
    (JString incompleteLinkSentinel) = Some incompleteLinkSentinel.
Proof. apply transformUrl_string. left. auto. Qed.

(** C6: repairing [Text with incomplete [link] yields text that ends with
    an inline link whose visible text is [link] and whose href is the
    sentinel [streamdown:incomplete-link]; and under every configuration
    (any platform parser, any allowed prefixes, any default origin) the
    transformer returns the sentinel unchanged, so that the link is
    rendered as an anchor marked incomplete, never as a blocked one. *)
Theorem C6_incomplete_link_sentinel_round_trip :
  IncompleteMarkdown.repairIncompleteLink (js "Text with incomplete [link")
  = js "Text with incomplete [link](streamdown:incomplete-link)"
  /\ Spec.endsWithAnchor
       (IncompleteMarkdown.repairIncompleteLink (js "Text with incomplete [link"))
       (js "link") incompleteLinkSentinel
  /\ forall (newURL : jsstring -> option jsstring -> option URL)
            (allowedPrefixes : list jsstring) (defaultOrigin : option jsstring),
       let transformer :=
         Harden.createHardenedUrlTransformer newURL allowedPrefixes defaultOrigin in
       transformer (JString (js "streamdown:incomplete-link"))
       = Some (js "streamdown:incomplete-link")
       /\ TokenParser.renderLink transformer (js "streamdown:incomplete-link")
          = TokenParser.Anchor (js "streamdown:incomplete-link") true.
Proof.
  split; [vm_compute; reflexivity|]. split.
  - exists (js "Text with incomplete "). vm_compute. reflexivity.
  - intros newURL allowedPrefixes defaultOrigin transformer.
    assert (transformer (JString (js "streamdown:incomplete-link"))
            = Some (js "streamdown:incomplete-link")) as E
      by apply transformUrl_sentinel.
    split; [exact E|]. unfold TokenParser.renderLink. rewrite E. reflexivity.
Qed.




(* ================================================================== *)
(** * Further properties of the sources *)
(* ================================================================== *)

(** ** lib/harden-markdown.ts *)

Lemma transformUrl_not_a_string newURL allowedPrefixes defaultOrigin url :
  (forall c s, url <> JString (c :: s)) ->
  Harden.transformUrl newURL allowedPrefixes defaultOrigin url = None.
Proof.
  intros Hns. unfold Harden.transformUrl.
  destruct url as [| | b | z | s |]; try reflexivity.
  - destruct b; reflexivity.
  - destruct z; reflexivity.
  - destruct s as [|c s]; [reflexivity|]. now elim (Hns c s).
Qed.

(** X1: whatever the configuration, an input that is not a non-empty
    string (null, undefined, a boolean, a number, an object, the empty
    string) is rejected. *)
Theorem X1_non_strings_rejected :
  forall (newURL : jsstring -> option jsstring -> option URL)
         (allowedPrefixes : list jsstring) (defaultOrigin : option jsstring)
         (url : js_value),
    (forall c s, url <> JString (c :: s)) ->
    Harden.transformUrl newURL allowedPrefixes defaultOrigin url = None.
Proof. intros. now apply transformUrl_not_a_string. Qed.

Lemma X1_witness :
  (forall c s, JNumber false <> JString (c :: s))
  /\ Harden.transformUrl WhatwgUrl.newURL [js "*"] None (JNumber false) = None.
Proof.
  assert (forall c s, JNumber false <> JString (c :: s)) as H by discriminate.
  split; [exact H|].
  exact (X1_non_strings_rejected WhatwgUrl.newURL [js "*"] None H).
Defined.

(** X2: a transformer built from an empty list of allowed prefixes accepts
    nothing but the incomplete-link sentinel. *)
Theorem X2_no_prefix_accepts_only_sentinel :
  forall (newURL : jsstring -> option jsstring -> option URL)
         (defaultOrigin : option jsstring) (url : js_value) (r : jsstring),
    Harden.transformUrl newURL [] defaultOrigin url = Some r ->
    url = JString incompleteLinkSentinel /\ r = incompleteLinkSentinel.
Proof.
  intros newURL defaultOrigin url r H.
  destruct url as [| | b | z | s |];
    try (rewrite transformUrl_not_a_string in H by discriminate; discriminate H).
  apply transformUrl_string in H.
  destruct H as [[-> ->] | [_ [_ [_ [u [_ [_ [_ [[p [[] _]] | [_ [[] _]]]]]]]]]]].
  auto.
Qed.

Lemma X2_witness :
  Harden.transformUrl WhatwgUrl.newURL [] None (JString incompleteLinkSentinel)
  = Some incompleteLinkSentinel
  /\ JString incompleteLinkSentinel = JString incompleteLinkSentinel.
Proof.
  assert (Harden.transformUrl WhatwgUrl.newURL [] None (JString incompleteLinkSentinel)
          = Some incompleteLinkSentinel) as H by reflexivity.
  split; [exact H|].
  exact (proj1 (X2_no_prefix_accepts_only_sentinel WhatwgUrl.newURL None _ H)).
Defined.

(** X3: an accepted string other than the sentinel is never returned as
    it was typed: it parsed, its parsed protocol is not in the dangerous
    list, and the result is rebuilt from the parsed URL, as
    path + query + fragment when the input began with [/] and as the
    normalized href otherwise. *)
Theorem X3_accepted_is_rebuilt_from_parsed_url :
  forall (newURL : jsstring -> option jsstring -> option URL)
         (allowedPrefixes : list jsstring) (defaultOrigin : option jsstring)
         (s r : jsstring),
    Harden.transformUrl newURL allowedPrefixes defaultOrigin (JString s) = Some r ->
    s <> incompleteLinkSentinel ->
    exists u,
      Harden.parseUrl newURL defaultOrigin (JString s) = Some u
      /\ Harden.isDangerousProtocol (protocol u) = false
      /\ r = (if startsWith s (js "/")
              then pathname u ++ search u ++ hash u
              else href u).
Proof.
  intros newURL allowedPrefixes defaultOrigin s r H Hs.
  apply transformUrl_string in H.
  destruct H as [[E _] | [_ [_ [_ [u [Hp [Hd [Hr _]]]]]]]]; [contradiction|].
  exists u. auto.
Qed.

Lemma X3_witness :
  exists u,
    Harden.parseUrl WhatwgUrl.newURL (Some (js "https://example.com"))
      (JString (js "/img.jpg?size=large#s")) = Some u
    /\ js "/img.jpg?size=large#s" = pathname u ++ search u ++ hash u.
Proof.
  assert (Harden.transformUrl WhatwgUrl.newURL [js "https://example.com/"]
            (Some (js "https://example.com")) (JString (js "/img.jpg?size=large#s"))
          = Some (js "/img.jpg?size=large#s")) as H by (vm_compute; reflexivity).
  assert (js "/img.jpg?size=large#s" <> incompleteLinkSentinel) as Hs by discriminate.
  destruct (X3_accepted_is_rebuilt_from_parsed_url _ _ _ H Hs) as [u [Hp [_ Hr]]].
  exists u. split; [exact Hp | exact Hr].
Defined.

(** The default origin is consulted only when a string does not parse on
    its own. *)
Lemma parseUrl_absolute newURL defaultOrigin s u :
  newURL s None = Some u ->
  Harden.parseUrl newURL defaultOrigin (JString s) = Some u.
Proof. intros H. unfold Harden.parseUrl. now rewrite H. Qed.

(** X4: when the input and every allowed prefix parse on their own, the
    default origin has no influence on the verdict. *)
Theorem X4_default_origin_irrelevant_for_absolute_urls :
  forall (newURL : jsstring -> option jsstring -> option URL)
         (allowedPrefixes : list jsstring) (defaultOrigin : option jsstring)
         (s : jsstring),
    newURL s None <> None ->
    (forall prefix, In prefix allowedPrefixes -> newURL prefix None <> None) ->
    Harden.transformUrl newURL allowedPrefixes defaultOrigin (JString s)
    = Harden.transformUrl newURL allowedPrefixes None (JString s).
Proof.
  intros newURL allowedPrefixes defaultOrigin s Hs Hprefixes.
  destruct (newURL s None) as [u|] eqn:Eu; [clear Hs | now elim Hs].
  unfold Harden.transformUrl.
  rewrite !(parseUrl_absolute newURL _ s Eu).
  assert (existsb (Harden.prefixMatches newURL defaultOrigin u) allowedPrefixes
          = existsb (Harden.prefixMatches newURL None u) allowedPrefixes) as ->;
    [|reflexivity].
  clear - Hprefixes. induction allowedPrefixes as [|p l IH]; [reflexivity|].
  simpl. f_equal.
  - unfold Harden.prefixMatches.
    destruct (newURL p None) as [pp|] eqn:Ep.
    + now rewrite !(parseUrl_absolute newURL _ p Ep).
    + elim (Hprefixes p); [now left | assumption].
  - apply IH. intros q Hq. apply Hprefixes. now right.
Qed.

Lemma X4_witness :
  Harden.transformUrl WhatwgUrl.newURL [js "https://example.com/"]
    (Some (js "https://other.org")) (JString (js "https://example.com/a"))
  = Harden.transformUrl WhatwgUrl.newURL [js "https://example.com/"] None
      (JString (js "https://example.com/a")).
Proof.
  apply X4_default_origin_irrelevant_for_absolute_urls.
  - vm_compute. discriminate.
  - intros prefix [<- | []]. vm_compute. discriminate.
Defined.

Lemma dangerous_of_protocolTokens :
  Harden.dangerous = map (fun token => token ++ js ":") Harden.protocolTokens.
Proof. vm_compute. reflexivity. Qed.

Lemma toLowerCase_unit_colon c : toLowerCase_unit c = 58%N -> c = 58%N.
Proof.
  unfold toLowerCase_unit. destruct ((65 <=? c) && (c <=? 90))%N eqn:U; [|auto].
  apply andb_true_iff in U. destruct U as [U1 U2]. apply N.leb_le in U1, U2. lia.
Qed.

Lemma dangerous_protocol_prefix_suspicious p rest :
  Harden.isDangerousProtocol p = true ->
  Harden.hasSuspiciousPatterns (p ++ rest) = true.
Proof.
  unfold Harden.isDangerousProtocol. rewrite includes_In, dangerous_of_protocolTokens.
  intros Hin. apply in_map_iff in Hin. destruct Hin as [token [E Hin]].
  unfold toLowerCase in E. symmetry in E. apply map_eq_app in E.
  destruct E as [tok [colon [-> [Etok Ecolon]]]].
  destruct colon as [|c [|c' colon]]; try discriminate Ecolon.
  injection Ecolon as Ec. apply toLowerCase_unit_colon in Ec. subst c.
  rewrite <- app_assoc. apply startsWithToken_suspicious.
  unfold toLowerCase. now rewrite Etok.
Qed.

(** X5: a string that begins with one of the dangerous protocols, in any
    mix of upper and lower case, is rejected under every configuration and
    whatever the platform parser makes of it: the list of the pre-check and
    the list of the protocol check name the same protocols. *)
Theorem X5_dangerous_protocol_prefix_rejected :
  forall (newURL : jsstring -> option jsstring -> option URL)
         (allowedPrefixes : list jsstring) (defaultOrigin : option jsstring)
         (p rest : jsstring),
    Harden.isDangerousProtocol p = true ->
    Harden.transformUrl newURL allowedPrefixes defaultOrigin (JString (p ++ rest))
    = None.
Proof.
  intros. apply transformUrl_suspicious.
  now apply dangerous_protocol_prefix_suspicious.
Qed.

Lemma X5_witness :
  Harden.isDangerousProtocol (js "VBScript:") = true
  /\ Harden.transformUrl WhatwgUrl.newURL [js "*"] None
       (JString (js "VBScript:" ++ js "msgbox(1)")) = None.
Proof.
  assert (Harden.isDangerousProtocol (js "VBScript:") = true) as H by reflexivity.
  split; [exact H|].
  exact (X5_dangerous_protocol_prefix_rejected WhatwgUrl.newURL [js "*"] None
           (js "VBScript:") (js "msgbox(1)") H).
Defined.

(** X6: the pre-check rejects nothing else: a string it flags contains a
    control character, a zero-width character, or a protocol token
    followed by optional whitespace and a colon. *)
Theorem X6_precheck_flags_only_the_three_patterns :
  forall s : jsstring,
    Harden.hasSuspiciousPatterns s = true ->
    (exists c, In c s /\ Spec.isControlCharacter c)
    \/ (exists c, In c s /\ Spec.isZeroWidthCharacter c)
    \/ Spec.hasProtocolTokenThenColon s.
Proof. intros s H. now apply hasSuspiciousPatterns_spec. Qed.

Lemma X6_witness :
  Harden.hasSuspiciousPatterns (js "a" ++ [8203%N] ++ js "b") = true
  /\ ((exists c, In c (js "a" ++ [8203%N] ++ js "b") /\ Spec.isControlCharacter c)
      \/ (exists c, In c (js "a" ++ [8203%N] ++ js "b")
                    /\ Spec.isZeroWidthCharacter c)
      \/ Spec.hasProtocolTokenThenColon (js "a" ++ [8203%N] ++ js "b")).
Proof.
  assert (Harden.hasSuspiciousPatterns (js "a" ++ [8203%N] ++ js "b") = true) as H
    by reflexivity.
  split; [exact H|].
  exact (X6_precheck_flags_only_the_three_patterns _ H).
Defined.

Lemma hasSpecificPrefixes_spec prefixes :
  HardenOptions.hasSpecificPrefixes prefixes = true <->
  exists p, In p prefixes /\ p <> js "*".
Proof.
  unfold HardenOptions.hasSpecificPrefixes. split.
  - intros H. apply andb_true_iff in H. destruct H as [_ H].
    apply negb_true_iff in H.
    induction prefixes as [|p l IH]; [discriminate|]. simpl in H.
    destruct (str_eqb p (js "*")) eqn:E.
    + destruct (IH H) as [q [Hq Hne]]. exists q. split; [now right | assumption].
    + exists p. split; [now left | now apply str_eqb_neq].
  - intros [p [Hin Hne]]. apply andb_true_iff. split.
    + destruct prefixes; [contradiction | reflexivity].
    + apply negb_true_iff. apply not_true_is_false. intros Hall.
      rewrite forallb_forall in Hall. apply Hall in Hin.
      apply str_eqb_eq in Hin. contradiction.
Qed.

(** X7: [validateMarkdownOptions] throws exactly when the default origin
    is missing or empty while one of the two prefix lists holds an entry
    other than ["*"]; otherwise it returns the three options, a missing
    one replaced by the empty string or the empty list. *)
Theorem X7_validateMarkdownOptions_throws_iff :
  forall options : HardenOptions.HardenSvelteMarkdownOptions,
    let origin := HardenOptions.orDefault [] (HardenOptions.defaultOrigin options) in
    let links :=
      HardenOptions.orDefault [] (HardenOptions.allowedLinkPrefixes options) in
    let images :=
      HardenOptions.orDefault [] (HardenOptions.allowedImagePrefixes options) in
    (HardenOptions.validateMarkdownOptions options = None
     <-> origin = [] /\ exists p, (In p links \/ In p images) /\ p <> js "*")
    /\ (forall validated,
          HardenOptions.validateMarkdownOptions options = Some validated ->
          validated = HardenOptions.mkValidated origin links images).
Proof.
  intros options origin links images.
  unfold HardenOptions.validateMarkdownOptions. fold origin links images.
  destruct (HardenOptions.hasSpecificPrefixes links) eqn:Hl;
    destruct (HardenOptions.hasSpecificPrefixes images) eqn:Hi;
    destruct origin as [|c o] eqn:Eo; cbn [orb andb]; split;
    try (intros validated [= <-]; reflexivity);
    try (intros validated H; discriminate H).
  all: try (split; [discriminate|]; intros [E _]; discriminate E).
  - split; [intros _|reflexivity]. split; [reflexivity|].
    apply hasSpecificPrefixes_spec in Hl. destruct Hl as [p [Hp Hne]]. eauto.
  - split; [intros _|reflexivity]. split; [reflexivity|].
    apply hasSpecificPrefixes_spec in Hl. destruct Hl as [p [Hp Hne]]. eauto.
  - split; [intros _|reflexivity]. split; [reflexivity|].
    apply hasSpecificPrefixes_spec in Hi. destruct Hi as [p [Hp Hne]]. eauto.
  - split; [discriminate|]. intros [_ [p [[Hp | Hp] Hne]]].
    + assert (HardenOptions.hasSpecificPrefixes links = true)
        by (apply hasSpecificPrefixes_spec; eauto). congruence.
    + assert (HardenOptions.hasSpecificPrefixes images = true)
        by (apply hasSpecificPrefixes_spec; eauto). congruence.
Qed.

Lemma X7_witness :
  HardenOptions.validateMarkdownOptions
    (HardenOptions.mkOptions None (Some [js "*"]) None)
  = Some (HardenOptions.mkValidated [] [js "*"] [])
  /\ HardenOptions.mkValidated [] [js "*"] []
     = HardenOptions.mkValidated
         (HardenOptions.orDefault [] None)
         (HardenOptions.orDefault [] (Some [js "*"]))
         (HardenOptions.orDefault [] None).
Proof.
  assert (HardenOptions.validateMarkdownOptions
            (HardenOptions.mkOptions None (Some [js "*"]) None)
          = Some (HardenOptions.mkValidated [] [js "*"] [])) as H by reflexivity.
  split; [exact H|].
  exact (proj2 (X7_validateMarkdownOptions_throws_iff
                  (HardenOptions.mkOptions None (Some [js "*"]) None)) _ H).
Defined.

Lemma not_hasSpecificPrefixes prefixes p :
  HardenOptions.hasSpecificPrefixes prefixes = false -> In p prefixes -> p = js "*".
Proof.
  intros H Hin. destruct (str_eqb p (js "*")) eqn:E; [now apply str_eqb_eq|].
  apply str_eqb_neq in E.
  assert (HardenOptions.hasSpecificPrefixes prefixes = true)
    by (apply hasSpecificPrefixes_spec; eauto). congruence.
Qed.

(** X8: options that pass the validation without a default origin give a
    link transformer that is a pure http(s) filter: provided the platform
    parser does not accept ["*"] as a URL, an accepted string other than
    the sentinel parses on its own and has protocol [https:] or [http:]. *)
Theorem X8_validated_without_origin_accepts_only_http :
  forall (newURL : jsstring -> option jsstring -> option URL)
         (options : HardenOptions.HardenSvelteMarkdownOptions)
         (transformer : js_value -> option jsstring) (s r : jsstring),
    newURL (js "*") None = None ->
    HardenOptions.orDefault [] (HardenOptions.defaultOrigin options) = [] ->
    TokenRender.linkTransformer newURL options = Some transformer ->
    transformer (JString s) = Some r ->
    s <> incompleteLinkSentinel ->
    exists u,
      newURL s None = Some u
      /\ (protocol u = js "https:" \/ protocol u = js "http:")
      /\ r = Harden.output (startsWith s (js "/")) u.
Proof.
  intros newURL options transformer s r Hstar Horigin Ht Hr Hs.
  unfold TokenRender.linkTransformer, HardenOptions.validateMarkdownOptions in Ht.
  rewrite Horigin in Ht. cbn [andb] in Ht.
  destruct (HardenOptions.hasSpecificPrefixes
              (HardenOptions.orDefault [] (HardenOptions.allowedLinkPrefixes options)))
    eqn:Hl; [discriminate Ht|].
  destruct (HardenOptions.hasSpecificPrefixes
              (HardenOptions.orDefault [] (HardenOptions.allowedImagePrefixes options)));
    [discriminate Ht|].
  cbn [orb] in Ht. injection Ht as <-. cbn in Hr.
  unfold Harden.createHardenedUrlTransformer in Hr.
  apply transformUrl_string in Hr.
  destruct Hr as [[E _] | [_ [_ [_ [u [Hp [_ [-> Hcase]]]]]]]]; [contradiction|].
  assert (forall t, Harden.parseUrl newURL (Some []) (JString t) = newURL t None) as Hparse.
  { intros t. unfold Harden.parseUrl. now destruct (newURL t None). }
  rewrite Hparse in Hp. exists u. split; [exact Hp|]. split; [|reflexivity].
  destruct Hcase as [[p [Hin Hm]] | [_ [_ Hproto]]]; [|exact Hproto].
  apply (not_hasSpecificPrefixes _ _ Hl) in Hin. subst p.
  unfold Harden.prefixMatches in Hm. rewrite Hparse, Hstar in Hm. discriminate.
Qed.

Lemma X8_witness :
  exists u,
    WhatwgUrl.newURL (js "https://example.com/test") None = Some u
    /\ (protocol u = js "https:" \/ protocol u = js "http:").
Proof.
  pose (options := HardenOptions.mkOptions None (Some [js "*"]) (Some [js "*"])).
  assert (WhatwgUrl.newURL (js "*") None = None) as Hstar by reflexivity.
  assert (HardenOptions.orDefault [] (HardenOptions.defaultOrigin options) = [])
    as Horigin by reflexivity.
  assert (TokenRender.linkTransformer WhatwgUrl.newURL options
          = Some (Harden.createHardenedUrlTransformer WhatwgUrl.newURL [js "*"] (Some [])))
    as Ht by reflexivity.
  assert (Harden.createHardenedUrlTransformer WhatwgUrl.newURL [js "*"] (Some [])
            (JString (js "https://example.com/test"))
          = Some (js "https://example.com/test")) as Hr by (vm_compute; reflexivity).
  assert (js "https://example.com/test" <> incompleteLinkSentinel) as Hs by discriminate.
  destruct (@X8_validated_without_origin_accepts_only_http
              WhatwgUrl.newURL options _ _ _ Hstar Horigin Ht Hr Hs)
    as [u [Hu [Hp _]]].
  exists u. split; [exact Hu | exact Hp].
Defined.

(** X9: the URLs that [TokenParser] renders are those the transformer
    returned.  An anchor carries the sentinel and is marked incomplete
    when the [href] of the token is the sentinel, and only then; the
    [href] of any other anchor and the [src] of any other image are
    rebuilt from a parsed URL whose protocol is not dangerous.  A link is
    blocked exactly when the transformer rejected its [href], and the
    title of the blocked span is the only place where the raw [href] is
    shown; a blocked image shows no URL, only its [alt].  The [alt] of an
    image is its text, or [Image] for an empty text, and so is never
    empty. *)
Theorem X9_rendered_urls_come_from_the_transformer :
  forall (newURL : jsstring -> option jsstring -> option URL)
         (allowedPrefixes : list jsstring) (defaultOrigin : option jsstring)
         (href : jsstring),
    let transformer :=
      Harden.createHardenedUrlTransformer newURL allowedPrefixes defaultOrigin in
    let rebuilt := fun url =>
      exists u,
        Harden.parseUrl newURL defaultOrigin (JString href) = Some u
        /\ Harden.isDangerousProtocol (protocol u) = false
        /\ url = Harden.output (startsWith href (js "/")) u in
    (forall url incomplete,
        TokenParser.renderLink transformer href = TokenParser.Anchor url incomplete ->
        transformer (JString href) = Some url
        /\ ((incomplete = true /\ href = incompleteLinkSentinel
             /\ url = incompleteLinkSentinel)
            \/ (incomplete = false /\ href <> incompleteLinkSentinel
                /\ rebuilt url)))
    /\ (forall title,
          TokenParser.renderLink transformer href = TokenParser.BlockedSpan title ->
          transformer (JString href) = None
          /\ title = js "Blocked URL: " ++ href)
    /\ (forall text src alt,
          TokenRender.renderImage transformer href text = TokenRender.Img src alt ->
          transformer (JString href) = Some src
          /\ alt = TokenRender.orElse text (js "Image") /\ alt <> []
          /\ ((href = incompleteLinkSentinel /\ src = incompleteLinkSentinel)
              \/ (href <> incompleteLinkSentinel /\ rebuilt src)))
    /\ (forall text shown,
          TokenRender.renderImage transformer href text = TokenRender.BlockedImage shown ->
          transformer (JString href) = None
          /\ shown = js "[Image blocked: " ++ TokenRender.orElse text (js "Image")
                     ++ js "]").
Proof.
  intros newURL allowedPrefixes defaultOrigin href transformer rebuilt.
  assert (forall url, transformer (JString href) = Some url ->
            (href = incompleteLinkSentinel /\ url = incompleteLinkSentinel)
            \/ (href <> incompleteLinkSentinel /\ rebuilt url)) as Hcases.
  { intros url H. apply transformUrl_string in H.
    destruct H as [[-> ->] | [Hne [_ [_ [u [Hp [Hd [Hr _]]]]]]]]; [now left|].
    right. split; [assumption|]. exists u. auto. }
  split; [|split; [|split]].
  - intros url incomplete H. unfold TokenParser.renderLink in H.
    destruct (transformer (JString href)) as [t|] eqn:Et; [|discriminate H].
    injection H as -> <-. split; [reflexivity|].
    destruct (Hcases _ eq_refl) as [[-> ->] | [Hne Hre]].
    + left. split; [apply str_eqb_refl | auto].
    + right. split; [now apply str_eqb_neq | auto].
  - intros title H. unfold TokenParser.renderLink in H.
    destruct (transformer (JString href)) as [t|] eqn:Et; [discriminate H|].
    injection H as <-. auto.
  - intros text src alt H. unfold TokenRender.renderImage in H.
    destruct (transformer (JString href)) as [t|] eqn:Et; [|discriminate H].
    injection H as -> <-. split; [reflexivity|]. split; [reflexivity|]. split.
    + destruct text; discriminate.
    + destruct (Hcases _ eq_refl) as [? | ?]; auto.
  - intros text shown H. unfold TokenRender.renderImage in H.
    destruct (transformer (JString href)) as [t|] eqn:Et; [discriminate H|].
    injection H as <-. split; [reflexivity|].
    destruct text; reflexivity.
Qed.

Lemma X9_witness :
  TokenParser.renderLink
    (Harden.createHardenedUrlTransformer WhatwgUrl.newURL [js "*"] None)
    (js "HTTPS://Example.com/a/../b")
  = TokenParser.Anchor (js "https://example.com/b") false
  /\ exists u,
       Harden.parseUrl WhatwgUrl.newURL None (JString (js "HTTPS://Example.com/a/../b"))
       = Some u
       /\ Harden.isDangerousProtocol (protocol u) = false.
Proof.
  assert (TokenParser.renderLink
            (Harden.createHardenedUrlTransformer WhatwgUrl.newURL [js "*"] None)
            (js "HTTPS://Example.com/a/../b")
          = TokenParser.Anchor (js "https://example.com/b") false) as H
    by (vm_compute; reflexivity).
  split; [exact H|].
  destruct (proj1 (X9_rendered_urls_come_from_the_transformer WhatwgUrl.newURL
                     [js "*"] None (js "HTTPS://Example.com/a/../b")) _ _ H)
    as [_ [[E _] | [_ [_ [u [Hp [Hd _]]]]]]]; [discriminate E|].
  exists u. split; [exact Hp | exact Hd].
Defined.

(** ** lib/parse-blocks.ts *)

Lemma concat_setLast blocks previousBlock candidate :
  ParseBlocks.atLast blocks = Some previousBlock ->
  List.concat (ParseBlocks.setLast blocks candidate) = List.concat (removelast blocks) ++ candidate.
Proof.
  intros _. unfold ParseBlocks.setLast. rewrite concat_app. simpl.
  now rewrite app_nil_r.
Qed.

Lemma Forall_removelast (P : jsstring -> Prop) blocks :
  Forall P blocks -> Forall P (removelast blocks).
Proof.
  induction 1 as [|b l Hb Hl IH]; [constructor|]. simpl.
  destruct l; [constructor | now constructor].
Qed.

Lemma atLast_None blocks : ParseBlocks.atLast blocks = None -> blocks = [].
Proof.
  unfold ParseBlocks.atLast. intros H.
  destruct (rev blocks) as [|b l] eqn:E; [|discriminate H].
  apply (f_equal (@rev _)) in E. now rewrite rev_involutive in E.
Qed.

(** One iteration keeps the text and keeps every block non-empty. *)
Lemma mergeStep_lossless mergedBlocks currentMeta :
  Forall (fun block => block <> []) mergedBlocks ->
  ParseBlocks.raw currentMeta <> [] ->
  List.concat (ParseBlocks.mergeStep mergedBlocks currentMeta)
  = List.concat mergedBlocks ++ ParseBlocks.raw currentMeta
  /\ Forall (fun block => block <> []) (ParseBlocks.mergeStep mergedBlocks currentMeta).
Proof.
  intros Hblocks Hraw.
  destruct (ParseBlocks.atLast mergedBlocks) as [previousBlock|] eqn:Hlast.
  - pose proof (atLast_app _ Hlast) as Esplit.
    assert (previousBlock <> []) as Hprev.
    { rewrite Esplit in Hblocks. apply Forall_app in Hblocks.
      destruct Hblocks as [_ H]. now inversion H. }
    destruct (@mergeStep_cases mergedBlocks previousBlock Hlast Hprev currentMeta)
      as [[-> _] | ->].
    + split.
      * rewrite (concat_setLast _ _ Hlast). rewrite Esplit at 2.
        rewrite concat_app. simpl. now rewrite app_nil_r, app_assoc.
      * unfold ParseBlocks.setLast. apply Forall_app. split.
        -- now apply Forall_removelast.
        -- constructor; [|constructor]. intros E. apply app_eq_nil in E. tauto.
    + unfold ParseBlocks.push. split.
      * rewrite concat_app. simpl. now rewrite app_nil_r.
      * apply Forall_app. split; [assumption | now repeat constructor].
  - assert (mergedBlocks = []) as ->.
    { now apply atLast_None. }
    rewrite mergeStep_first. simpl. split; [now rewrite app_nil_r|].
    now repeat constructor.
Qed.

Lemma fold_mergeStep_lossless tokensWithMeta : forall mergedBlocks,
  Forall (fun block => block <> []) mergedBlocks ->
  Forall (fun meta => ParseBlocks.raw meta <> []) tokensWithMeta ->
  List.concat (fold_left ParseBlocks.mergeStep tokensWithMeta mergedBlocks)
  = List.concat mergedBlocks ++ List.concat (map ParseBlocks.raw tokensWithMeta)
  /\ Forall (fun block => block <> [])
       (fold_left ParseBlocks.mergeStep tokensWithMeta mergedBlocks).
Proof.
  induction tokensWithMeta as [|meta rest IH]; intros mergedBlocks Hblocks Hraws.
  - simpl. now rewrite app_nil_r.
  - inversion Hraws as [|? ? Hraw Hrest]; subst. simpl.
    destruct (@mergeStep_lossless mergedBlocks meta Hblocks Hraw) as [Econcat Hne].
    destruct (IH _ Hne Hrest) as [E H]. split; [|exact H].
    now rewrite E, Econcat, app_assoc.
Qed.

(** X10: merging is lossless.  On blocks that are not empty, as the blocks
    of a lexer are, the merged blocks concatenate to the same text as the
    blocks they come from, in the same order, and no merged block is
    empty. *)
Theorem X10_mergeBlocks_is_lossless :
  forall tokensWithMeta : list ParseBlocks.TokenMeta,
    Forall (fun meta => ParseBlocks.raw meta <> []) tokensWithMeta ->
    List.concat (ParseBlocks.mergeBlocks tokensWithMeta)
    = List.concat (map ParseBlocks.raw tokensWithMeta)
    /\ Forall (fun block => block <> []) (ParseBlocks.mergeBlocks tokensWithMeta).
Proof.
  intros tokensWithMeta Hraws.
  exact (@fold_mergeStep_lossless tokensWithMeta [] (Forall_nil _) Hraws).
Qed.

Lemma X10_witness :
  let paragraph := fun s =>
    ParseBlocks.mkTokenMeta s (js "paragraph")
      (ParseBlocks.mkToken (Some s) None (Some (js "paragraph"))) in
  let tokens :=
    [paragraph (js "$$" ++ [10%N] ++ js "x =" ++ [10%N]); paragraph (js "$$")] in
  Forall (fun meta => ParseBlocks.raw meta <> []) tokens
  /\ List.concat (ParseBlocks.mergeBlocks tokens)
     = js "$$" ++ [10%N] ++ js "x =" ++ [10%N] ++ js "$$".
Proof.
  intros paragraph tokens.
  assert (Forall (fun meta => ParseBlocks.raw meta <> []) tokens) as H
    by (repeat constructor; discriminate).
  split; [exact H|].
  exact (proj1 (@X10_mergeBlocks_is_lossless tokens H)).
Defined.

Lemma length_setLast blocks candidate :
  blocks <> [] ->
  List.length (ParseBlocks.setLast blocks candidate) = List.length blocks.
Proof.
  intros Hne. unfold ParseBlocks.setLast.
  rewrite length_app, removelast_firstn_len, length_firstn.
  destruct blocks; [contradiction | simpl; lia].
Qed.

Lemma length_mergeStep mergedBlocks currentMeta :
  (List.length (ParseBlocks.mergeStep mergedBlocks currentMeta)
   <= S (List.length mergedBlocks))%nat.
Proof.
  assert (forall block, List.length (ParseBlocks.push mergedBlocks block)
                        = S (List.length mergedBlocks)) as Hpush.
  { intros block. unfold ParseBlocks.push. rewrite length_app. simpl. lia. }
  destruct mergedBlocks as [|b l] eqn:E.
  { rewrite mergeStep_first. simpl. lia. }
  rewrite <- E in *.
  assert (mergedBlocks <> []) as Hne by (subst; discriminate).
  assert (forall candidate,
             (List.length (ParseBlocks.setLast mergedBlocks candidate)
              <= S (List.length mergedBlocks))%nat) as Hset.
  { intros candidate. rewrite (length_setLast _ Hne). lia. }
  unfold ParseBlocks.mergeStep.
  destruct (ParseBlocks.isKatexType (ParseBlocks.type currentMeta));
    [rewrite Hpush; lia|].
  unfold ParseBlocks.mergeStandaloneClosing, ParseBlocks.mergeClosingSuffix.
  repeat match goal with
         | |- context [if ?c then _ else _] => destruct c
         | |- context [match ?o with Some _ => _ | None => _ end] =>
             match o with
             | ParseBlocks.atLast _ => destruct o as [[|? ?]|]
             end
         end;
    cbv beta iota zeta; rewrite ?Hpush; auto.
Qed.

Lemma length_fold_mergeStep tokensWithMeta : forall mergedBlocks,
  (List.length (fold_left ParseBlocks.mergeStep tokensWithMeta mergedBlocks)
   <= List.length mergedBlocks + List.length tokensWithMeta)%nat.
Proof.
  induction tokensWithMeta as [|meta rest IH]; intros mergedBlocks; simpl; [lia|].
  specialize (IH (ParseBlocks.mergeStep mergedBlocks meta)).
  pose proof (length_mergeStep mergedBlocks meta). lia.
Qed.

Lemma dropWhile_app_nonempty p a b :
  dropWhile p a <> [] -> dropWhile p (a ++ b) = dropWhile p a ++ b.
Proof.
  induction a as [|x a IH]; simpl; [now intros H|].
  destruct (p x); [exact IH | reflexivity].
Qed.

Lemma dropWhile_split p s :
  exists skipped, s = skipped ++ dropWhile p s.
Proof.
  induction s as [|x s [w IH]]; simpl; [now exists []|].
  destruct (p x); [|now exists []]. exists (x :: w). simpl. now f_equal.
Qed.

(** A block that is a delimiter alone also ends with the delimiter. *)
Lemma trim_delimiter_endsWith s :
  trim s = js "$$" -> endsWith (trimEnd s) (js "$$") = true.
Proof.
  unfold trim, trimEnd, trimStart. intros H.
  destruct (dropWhile_split isWhiteSpace s) as [skipped Es].
  apply endsWith_app. exists skipped.
  rewrite Es at 1. rewrite rev_app_distr.
  assert (dropWhile isWhiteSpace (rev (dropWhile isWhiteSpace s))
          = rev (js "$$")) as E.
  { rewrite <- H. now rewrite rev_involutive. }
  rewrite dropWhile_app_nonempty by (rewrite E; discriminate).
  rewrite E, rev_app_distr, !rev_involutive. reflexivity.
Qed.

Lemma mergeStep_without_delimiter mergedBlocks currentMeta :
  endsWith (trimEnd (ParseBlocks.raw currentMeta)) (js "$$") = false ->
  ParseBlocks.mergeStep mergedBlocks currentMeta
  = ParseBlocks.push mergedBlocks (ParseBlocks.raw currentMeta).
Proof.
  intros Hend. unfold ParseBlocks.mergeStep.
  destruct (ParseBlocks.isKatexType (ParseBlocks.type currentMeta)); [reflexivity|].
  unfold ParseBlocks.mergeStandaloneClosing, ParseBlocks.mergeClosingSuffix.
  rewrite Hend, andb_false_r.
  destruct (str_eqb (trim (ParseBlocks.raw currentMeta)) (js "$$")) eqn:Et;
    [|reflexivity].
  apply str_eqb_eq, trim_delimiter_endsWith in Et. congruence.
Qed.

(** X11: merging never adds blocks: there are at most as many merged
    blocks as tokens; and when no token ends with the delimiter [$$]
    (trailing whitespace apart) the merged blocks are exactly the raw
    texts of the tokens. *)
Theorem X11_mergeBlocks_count_and_identity :
  forall tokensWithMeta : list ParseBlocks.TokenMeta,
    (List.length (ParseBlocks.mergeBlocks tokensWithMeta)
     <= List.length tokensWithMeta)%nat
    /\ (Forall (fun meta =>
                  endsWith (trimEnd (ParseBlocks.raw meta)) (js "$$") = false)
               tokensWithMeta ->
        ParseBlocks.mergeBlocks tokensWithMeta = map ParseBlocks.raw tokensWithMeta).
Proof.
  intros tokensWithMeta. split.
  - exact (length_fold_mergeStep tokensWithMeta []).
  - unfold ParseBlocks.mergeBlocks. intros H.
    change (map ParseBlocks.raw tokensWithMeta)
      with ([] ++ map ParseBlocks.raw tokensWithMeta).
    generalize (@nil jsstring) as mergedBlocks.
    induction H as [|meta rest Hmeta Hrest IH]; intros mergedBlocks; simpl.
    + now rewrite app_nil_r.
    + rewrite (mergeStep_without_delimiter _ _ Hmeta), IH.
      unfold ParseBlocks.push. now rewrite <- app_assoc.
Qed.

Lemma X11_witness :
  let heading :=
    ParseBlocks.mkTokenMeta (js "# Title") (js "heading")
      (ParseBlocks.mkToken (Some (js "# Title")) None (Some (js "heading"))) in
  Forall (fun meta => endsWith (trimEnd (ParseBlocks.raw meta)) (js "$$") = false)
         [heading; heading]
  /\ ParseBlocks.mergeBlocks [heading; heading] = [js "# Title"; js "# Title"].
Proof.
  intros heading.
  assert (Forall (fun meta =>
                    endsWith (trimEnd (ParseBlocks.raw meta)) (js "$$") = false)
                 [heading; heading]) as H by (repeat constructor).
  split; [exact H|].
  exact (proj2 (X11_mergeBlocks_count_and_identity [heading; heading]) H).
Defined.

(** X12: the token cache does not change what [parseMarkdownIntoTokens]
    returns.  The empty cache is sound, and on a sound cache a call
    returns what tokenizing the text yields and leaves a sound cache,
    also for a text that itself contains [:true] or [:false]. *)
Theorem X12_token_cache_is_transparent :
  forall (lexer : jsstring -> list ParseBlocks.Token)
         (parseIncompleteMarkdown : jsstring -> jsstring),
    Spec.cacheSound lexer parseIncompleteMarkdown []
    /\ forall (tokenCache : ParseBlocks.Cache) (markdown : jsstring) (flag : bool),
         Spec.cacheSound lexer parseIncompleteMarkdown tokenCache ->
         fst (ParseBlocks.parseMarkdownIntoTokens lexer parseIncompleteMarkdown
                tokenCache markdown flag)
         = ParseBlocks.tokenize lexer parseIncompleteMarkdown markdown flag
         /\ Spec.cacheSound lexer parseIncompleteMarkdown
              (snd (ParseBlocks.parseMarkdownIntoTokens lexer parseIncompleteMarkdown
                      tokenCache markdown flag)).
Proof.
  intros lexer parseIncompleteMarkdown. split; [constructor|].
  intros. now apply parseMarkdownIntoTokens_cache.
Qed.

Lemma X12_witness :
  let lexer := fun s : jsstring =>
    [ParseBlocks.mkToken (Some s) None (Some (js "paragraph"))] in
  let repair := fun s : jsstring => s in
  let first :=
    ParseBlocks.parseMarkdownIntoTokens lexer repair [] (js "a:true") false in
  Spec.cacheSound lexer repair (snd first)
  /\ fst (ParseBlocks.parseMarkdownIntoTokens lexer repair (snd first) (js "a") true)
     = ParseBlocks.tokenize lexer repair (js "a") true.
Proof.
  intros lexer repair first.
  pose proof (X12_token_cache_is_transparent lexer repair) as [Hempty Hcall].
  pose proof (proj2 (Hcall [] (js "a:true") false Hempty)) as Hsound.
  split; [exact Hsound|].
  exact (proj1 (Hcall (snd first) (js "a") true Hsound)).
Defined.




Lemma makeCacheKey_nonempty markdown flag :
  ParseBlocks.makeCacheKey markdown flag <> [].
Proof.
  unfold ParseBlocks.makeCacheKey. intros E. apply app_eq_nil in E.
  destruct E as [_ E]. discriminate E.
Qed.

(** X14: the cache stays bounded: a sound cache of at most
    [MAX_CACHE_SIZE] entries has at most [MAX_CACHE_SIZE] entries after a
    call, because the key of its oldest entry is never the empty string
    and the entry is therefore deleted. *)
Theorem X14_token_cache_is_bounded :
  forall (lexer : jsstring -> list ParseBlocks.Token)
         (parseIncompleteMarkdown : jsstring -> jsstring)
         (tokenCache : ParseBlocks.Cache) (markdown : jsstring) (flag : bool),
    Spec.cacheSound lexer parseIncompleteMarkdown tokenCache ->
    (List.length tokenCache <= ParseBlocks.MAX_CACHE_SIZE)%nat ->
    (List.length
       (snd (ParseBlocks.parseMarkdownIntoTokens lexer parseIncompleteMarkdown
               tokenCache markdown flag))
     <= ParseBlocks.MAX_CACHE_SIZE)%nat.
Proof.
  intros lexer repair tokenCache markdown flag Hsound Hsize.
  unfold ParseBlocks.parseMarkdownIntoTokens.
  destruct (ParseBlocks.cacheGet tokenCache (ParseBlocks.makeCacheKey markdown flag));
    cbn [snd]; [assumption|].
  unfold ParseBlocks.cacheSet. rewrite length_app. cbn [List.length].
  destruct (ParseBlocks.MAX_CACHE_SIZE <=? List.length tokenCache)%nat eqn:Efull.
  - apply Nat.leb_le in Efull.
    destruct tokenCache as [|[k tokens] rest];
      [unfold ParseBlocks.MAX_CACHE_SIZE in Efull; simpl in Efull; lia|].
    inversion Hsound as [|? ? [m [f [Hk _]]] _]; subst. cbn [fst] in Hk.
    destruct k as [|c k]; [now elim (makeCacheKey_nonempty m f)|].
    cbn [ParseBlocks.cacheDeleteFirst]. simpl in Hsize. lia.
  - apply Nat.leb_gt in Efull. lia.
Qed.

Lemma X14_witness :
  let lexer := fun s : jsstring =>
    [ParseBlocks.mkToken (Some s) None (Some (js "paragraph"))] in
  let repair := fun s : jsstring => s in
  Spec.cacheSound lexer repair []
  /\ (List.length (@nil (jsstring * list ParseBlocks.Token))
      <= ParseBlocks.MAX_CACHE_SIZE)%nat
  /\ (List.length
        (snd (ParseBlocks.parseMarkdownIntoTokens lexer repair [] (js "a") true))
      <= ParseBlocks.MAX_CACHE_SIZE)%nat.
Proof.
  intros lexer repair.
  assert (Spec.cacheSound lexer repair []) as Hsound by constructor.
  assert (List.length (@nil (jsstring * list ParseBlocks.Token))
          <= ParseBlocks.MAX_CACHE_SIZE)%nat as Hsize
    by (unfold ParseBlocks.MAX_CACHE_SIZE; simpl; lia).
  split; [exact Hsound|]. split; [exact Hsize|].
  exact (@X14_token_cache_is_bounded lexer repair [] (js "a") true Hsound Hsize).
Defined.

(** ** Streamdown.svelte: the keys of the token list *)

Lemma N_of_ascii_inj a b : N_of_ascii a = N_of_ascii b -> a = b.
Proof.
  intros H. rewrite <- (ascii_N_embedding a), <- (ascii_N_embedding b).
  now rewrite H.
Qed.

Lemma js_inj a b : js a = js b -> a = b.
Proof.
  unfold js. intros H.
  rewrite <- (string_of_list_ascii_of_string a), <- (string_of_list_ascii_of_string b).
  f_equal. revert H. generalize (list_ascii_of_string a) (list_ascii_of_string b).
  induction l as [|x l IH]; intros [|y l']; simpl; intros H; try discriminate H.
  - reflexivity.
  - injection H as Hx Hl. f_equal; [now apply N_of_ascii_inj | now apply IH].
Qed.

Lemma to_uint_not_Nil n : Nat.to_uint n <> Decimal.Nil.
Proof.
  rewrite <- (DecimalNat.Unsigned.of_to n) at 1.
  rewrite DecimalNat.Unsigned.to_of. apply DecimalFacts.unorm_nonnil.
Qed.

Lemma numberToString_inj n m :
  StreamdownKeys.numberToString n = StreamdownKeys.numberToString m -> n = m.
Proof.
  unfold StreamdownKeys.numberToString. intros H. apply js_inj in H.
  apply DecimalNat.Unsigned.to_uint_inj.
  pose proof (DecimalString.NilZero.usu _ (to_uint_not_Nil n)) as Hn.
  pose proof (DecimalString.NilZero.usu _ (to_uint_not_Nil m)) as Hm.
  rewrite H in Hn. congruence.
Qed.

Lemma digits_of_uint d :
  Forall (fun c => c <> 95%N) (js (DecimalString.NilEmpty.string_of_uint d)).
Proof.
  induction d; simpl; constructor; try assumption; discriminate.
Qed.

Lemma numberToString_no_underscore n :
  Forall (fun c => c <> 95%N) (StreamdownKeys.numberToString n).
Proof.
  unfold StreamdownKeys.numberToString, DecimalString.NilZero.string_of_uint.
  destruct (Nat.to_uint n) eqn:E; try (rewrite <- E; apply digits_of_uint).
  repeat constructor. discriminate.
Qed.

(** Two texts that agree and end with a separator followed by
    separator-free text agree on that last part. *)
Lemma after_last_separator (c : code_unit) a b x y :
  Forall (fun u => u <> c) x -> Forall (fun u => u <> c) y ->
  a ++ c :: x = b ++ c :: y -> x = y.
Proof.
  intros Hx Hy E. apply (f_equal (@rev _)) in E.
  rewrite !rev_app_distr in E. simpl in E. rewrite <- !app_assoc in E. simpl in E.
  assert (rev x = rev y) as R.
  { apply Forall_rev in Hx, Hy. revert E Hx Hy.
    generalize (rev x) (rev y) (rev a) (rev b). clear.
    induction l as [|h t IH]; intros [|h' t'] ra rb E Hx Hy; simpl in E.
    - reflexivity.
    - injection E as E _. inversion Hy; subst. congruence.
    - injection E as E _. inversion Hx; subst. congruence.
    - injection E as -> E. inversion Hx; inversion Hy; subst. f_equal. eauto. }
  rewrite <- (rev_involutive x), <- (rev_involutive y). now rewrite R.
Qed.

Lemma getTokenKey_shape token index :
  exists prefix,
    StreamdownKeys.getTokenKey token index
    = prefix ++ 95%N :: StreamdownKeys.numberToString index.
Proof.
  unfold StreamdownKeys.getTokenKey.
  destruct (str_eqb (StreamdownKeys.type token) (js "code")).
  - match goal with
    | |- exists _, js "code_" ++ ?language ++ _ = _ =>
        exists (js "code_" ++ language)
    end.
    now rewrite <- !app_assoc.
  - match goal with
    | |- exists _, ?type ++ _ ++ ?chunk ++ _ ++ _ = _ =>
        exists (type ++ StreamdownKeys.underscore ++ chunk)
    end.
    now rewrite <- !app_assoc.
Qed.

Lemma getTokenKey_index token token' i j :
  StreamdownKeys.getTokenKey token i = StreamdownKeys.getTokenKey token' j -> i = j.
Proof.
  destruct (getTokenKey_shape token i) as [p ->].
  destruct (getTokenKey_shape token' j) as [q ->].
  intros E. apply numberToString_inj.
  eapply after_last_separator; [| |exact E]; apply numberToString_no_underscore.
Qed.

Lemma keysFrom_index j tokens key :
  In key (StreamdownKeys.keysFrom j tokens) ->
  exists token i, (j <= i)%nat /\ key = StreamdownKeys.getTokenKey token i.
Proof.
  revert j. induction tokens as [|t rest IH]; intros j; simpl; [intros []|].
  intros [<- | Hin].
  - exists t, j. auto.
  - destruct (IH _ Hin) as [token [i [Hi E]]]. exists token, i. split; [lia | exact E].
Qed.

(** X15: the keys that [Streamdown.svelte] gives to the tokens of one
    render are pairwise distinct, whatever the tokens are: a key ends with
    the index of its token, and two keys with different indices differ. *)
Theorem X15_token_keys_are_distinct :
  forall tokens : list StreamdownKeys.KeyedToken,
    NoDup (StreamdownKeys.eachKeys tokens)
    /\ forall token token' i j,
         StreamdownKeys.getTokenKey token i = StreamdownKeys.getTokenKey token' j ->
         i = j.
Proof.
  intros tokens. split; [|intros; eapply getTokenKey_index; eassumption].
  unfold StreamdownKeys.eachKeys. generalize 0%nat as j.
  induction tokens as [|t rest IH]; intros j; simpl; constructor.
  - intros Hin. apply keysFrom_index in Hin.
    destruct Hin as [token [i [Hi E]]]. apply getTokenKey_index in E. lia.
  - apply IH.
Qed.

Lemma X15_witness :
  let token := StreamdownKeys.mkKeyedToken (js "code") (Some (js "ts_1")) (js "x") None in
  StreamdownKeys.getTokenKey token 12 = StreamdownKeys.getTokenKey token 12
  /\ 12%nat = 12%nat.
Proof.
  intros token. split; [reflexivity|].
  exact (proj2 (X15_token_keys_are_distinct []) token token 12%nat 12%nat eq_refl).
Defined.

(** ** lib/table/table-utils.ts *)

Lemma padLoop_enough fuel : forall paddedRow n,
  (n - List.length paddedRow <= fuel)%nat ->
  TableUtils.padLoop fuel paddedRow n
  = paddedRow ++ repeat [] (n - List.length paddedRow).
Proof.
  induction fuel as [|fuel IH]; intros paddedRow n Hfuel; simpl.
  - destruct (List.length paddedRow <? n)%nat eqn:E.
    + apply Nat.ltb_lt in E. lia.
    + apply Nat.ltb_ge in E. replace (n - List.length paddedRow)%nat with 0%nat by lia.
      simpl. now rewrite app_nil_r.
  - destruct (List.length paddedRow <? n)%nat eqn:E.
    + apply Nat.ltb_lt in E. rewrite IH by (rewrite length_app; simpl; lia).
      rewrite length_app. simpl.
      replace (n - List.length paddedRow)%nat
        with (S (n - (List.length paddedRow + 1)))%nat by lia.
      simpl. now rewrite <- app_assoc.
    + apply Nat.ltb_ge in E. replace (n - List.length paddedRow)%nat with 0%nat by lia.
      simpl. now rewrite app_nil_r.
Qed.

(** X16: in [tableDataToMarkdown] the padding loop ends with the row
    followed by as many empty cells as it lacks: a row shorter than the
    header gets the length of the header, and a longer row keeps all its
    cells. *)
Theorem X16_padded_row :
  forall (row : list jsstring) (n : nat),
    TableUtils.padRow row n = row ++ repeat [] (n - List.length row)
    /\ List.length (TableUtils.padRow row n) = Nat.max n (List.length row).
Proof.
  intros row n. unfold TableUtils.padRow.
  rewrite padLoop_enough by lia. split; [reflexivity|].
  rewrite length_app, repeat_length. lia.
Qed.

Lemma escapePipes_cons x cell :
  TableUtils.escapePipes (x :: cell)
  = (if (x =? TableUtils.pipe)%N then [TableUtils.backslash; TableUtils.pipe] else [x])
    ++ TableUtils.escapePipes cell.
Proof. reflexivity. Qed.

Lemma escapePipes_head cell d rest :
  TableUtils.escapePipes cell = d :: rest -> d <> TableUtils.pipe.
Proof.
  destruct cell as [|x cell]; [discriminate|]. rewrite escapePipes_cons.
  destruct (x =? TableUtils.pipe)%N eqn:E.
  - intros [= <- _]. discriminate.
  - intros [= <- _]. now apply N.eqb_neq.
Qed.

Lemma unescapePipes_step c d rest :
  Readers.unescapePipes (c :: d :: rest)
  = if ((c =? TableUtils.backslash) && (d =? TableUtils.pipe))%N
    then d :: Readers.unescapePipes rest
    else c :: Readers.unescapePipes (d :: rest).
Proof. reflexivity. Qed.

(** X17: escaping the pipes of a cell can be undone, and leaves no pipe
    without a backslash in front of it: removing the backslash before
    every pipe gives the cell back, also for a cell that holds
    backslashes of its own. *)
Theorem X17_escaped_pipes :
  forall cell : jsstring,
    Readers.unescapePipes (TableUtils.escapePipes cell) = cell
    /\ forall before after,
         TableUtils.escapePipes cell = before ++ TableUtils.pipe :: after ->
         exists before', before = before' ++ [TableUtils.backslash].
Proof.
  intros cell. split.
  - induction cell as [|x cell IH]; [reflexivity|].
    rewrite escapePipes_cons. destruct (x =? TableUtils.pipe)%N eqn:E.
    + apply N.eqb_eq in E. subst x. simpl. now rewrite IH.
    + cbn [app]. destruct (TableUtils.escapePipes cell) as [|d rest] eqn:Ec.
      * simpl. now rewrite <- IH.
      * pose proof (escapePipes_head _ Ec) as Hd. rewrite unescapePipes_step.
        apply N.eqb_neq in Hd. rewrite Hd, andb_false_r. now rewrite IH.
  - induction cell as [|x cell IH]; intros before after E.
    + destruct before; discriminate E.
    + rewrite escapePipes_cons in E. destruct (x =? TableUtils.pipe)%N eqn:Ex.
      * destruct before as [|b [|b' before]]; simpl in E.
        -- discriminate E.
        -- exists []. simpl. congruence.
        -- assert (TableUtils.escapePipes cell = before ++ TableUtils.pipe :: after)
             as E' by congruence.
           destruct (IH _ _ E') as [before' ->].
           exists (TableUtils.backslash :: TableUtils.pipe :: before').
           simpl. congruence.
      * destruct before as [|b before]; simpl in E.
        -- assert (x = TableUtils.pipe) as -> by congruence.
           now rewrite N.eqb_refl in Ex.
        -- assert (TableUtils.escapePipes cell = before ++ TableUtils.pipe :: after)
             as E' by congruence.
           destruct (IH _ _ E') as [before' ->].
           now exists (b :: before').
Qed.

Lemma X17_witness :
  TableUtils.escapePipes (js "a|b") = js "a\" ++ TableUtils.pipe :: js "b"
  /\ exists before', js "a\" = before' ++ [TableUtils.backslash].
Proof.
  assert (TableUtils.escapePipes (js "a|b") = js "a\" ++ TableUtils.pipe :: js "b")
    as H by reflexivity.
  split; [exact H|].
  exact (proj2 (X17_escaped_pipes (js "a|b")) _ _ H).
Defined.

(** *** Reading back what [tableDataToCSV] writes *)

Lemma includesUnit_false c value :
  TableUtils.includesUnit c value = false -> Forall (fun x => x <> c) value.
Proof.
  unfold TableUtils.includesUnit. induction value as [|x value IH]; simpl; intros H.
  - constructor.
  - apply orb_false_iff in H. destruct H as [Hx H]. constructor; [|now apply IH].
    apply N.eqb_neq in Hx. congruence.
Qed.

Lemma readCSVFrom_end state field record records :
  Readers.readCSVFrom state field record records [] = records ++ [record ++ [field]].
Proof. now destruct state. Qed.

Lemma readCSVFrom_comma state field record records s :
  state <> Readers.InQuoted ->
  Readers.readCSVFrom state field record records (TableUtils.comma :: s)
  = Readers.readCSVFrom Readers.FieldStart [] (record ++ [field]) records s.
Proof. destruct state; intros H; try reflexivity. now destruct H. Qed.

Lemma readCSVFrom_lineFeed state field record records s :
  state <> Readers.InQuoted ->
  Readers.readCSVFrom state field record records (TableUtils.lineFeed :: s)
  = Readers.readCSVFrom Readers.FieldStart [] [] (records ++ [record ++ [field]]) s.
Proof. destruct state; intros H; try reflexivity. now destruct H. Qed.

Lemma readCSVFrom_plain state field record records c s :
  state <> Readers.InQuoted ->
  c <> TableUtils.comma -> c <> TableUtils.quote -> c <> TableUtils.lineFeed ->
  Readers.readCSVFrom state field record records (c :: s)
  = Readers.readCSVFrom Readers.InPlain (field ++ [c]) record records s.
Proof.
  intros Hstate Hc Hq Hl. apply N.eqb_neq in Hc, Hq, Hl.
  destruct state; cbn [Readers.readCSVFrom]; rewrite ?Hc, ?Hl, ?Hq; try reflexivity.
  now destruct Hstate.
Qed.

Lemma readCSVFrom_plain_run value : forall field record records rest,
  Forall (fun c => c <> TableUtils.comma) value ->
  Forall (fun c => c <> TableUtils.quote) value ->
  Forall (fun c => c <> TableUtils.lineFeed) value ->
  Readers.readCSVFrom Readers.InPlain field record records (value ++ rest)
  = Readers.readCSVFrom Readers.InPlain (field ++ value) record records rest.
Proof.
  induction value as [|c value IH]; intros field record records rest Hc Hq Hl.
  - now rewrite app_nil_r.
  - inversion Hc; inversion Hq; inversion Hl; subst.
    rewrite <- app_comm_cons, readCSVFrom_plain by (assumption || discriminate).
    rewrite IH by assumption. now rewrite <- app_assoc.
Qed.

Lemma readCSVFrom_quoted_run value : forall field record records rest,
  Readers.readCSVFrom Readers.InQuoted field record records
    (TableUtils.replaceAll TableUtils.quote [TableUtils.quote; TableUtils.quote] value
     ++ TableUtils.quote :: rest)
  = Readers.readCSVFrom Readers.AfterQuote (field ++ value) record records rest.
Proof.
  induction value as [|c value IH]; intros field record records rest.
  - rewrite app_nil_r. reflexivity.
  - unfold TableUtils.replaceAll in *. cbn [flat_map].
    destruct (c =? TableUtils.quote)%N eqn:E.
    + apply N.eqb_eq in E. subst c. cbn [app Readers.readCSVFrom].
      change (TableUtils.quote =? TableUtils.quote)%N with true.
      change (TableUtils.quote =? TableUtils.comma)%N with false.
      change (TableUtils.quote =? TableUtils.lineFeed)%N with false.
      cbv iota. rewrite IH. now rewrite <- app_assoc.
    + cbn [app Readers.readCSVFrom]. rewrite E, IH. now rewrite <- app_assoc.
Qed.

(** A field written by [escapeCSV] and followed by the end of the text, a
    comma or a line feed is read back as the value. *)
Lemma readCSVFrom_escapeCSV value record records rest :
  (rest = [] \/ exists c s, rest = c :: s
                            /\ (c = TableUtils.comma \/ c = TableUtils.lineFeed)) ->
  exists state, state <> Readers.InQuoted
    /\ Readers.readCSVFrom Readers.FieldStart [] record records
         (TableUtils.escapeCSV value ++ rest)
       = Readers.readCSVFrom state value record records rest.
Proof.
  intros Hrest. unfold TableUtils.escapeCSV.
  destruct (TableUtils.includesUnit TableUtils.comma value) eqn:Ec;
    [|destruct (TableUtils.includesUnit TableUtils.quote value) eqn:Eq;
      [|destruct (TableUtils.includesUnit TableUtils.lineFeed value) eqn:El]];
    cbn [orb].
  4: {
    apply includesUnit_false in Ec, Eq, El.
    destruct value as [|c value].
    - exists Readers.FieldStart. split; [discriminate|reflexivity].
    - exists Readers.InPlain. split; [discriminate|].
      inversion Ec; inversion Eq; inversion El; subst.
      rewrite <- app_comm_cons, readCSVFrom_plain by (assumption || discriminate).
      now rewrite readCSVFrom_plain_run by assumption. }
  all: exists Readers.AfterQuote; split; [discriminate|];
    rewrite <- !app_assoc; cbn [app Readers.readCSVFrom];
    change (TableUtils.quote =? TableUtils.quote)%N with true;
    change (TableUtils.quote =? TableUtils.comma)%N with false;
    change (TableUtils.quote =? TableUtils.lineFeed)%N with false;
    cbv iota; now rewrite readCSVFrom_quoted_run.
Qed.

Lemma join_cons2 separator p q rest :
  TableUtils.join separator (p :: q :: rest)
  = p ++ separator ++ TableUtils.join separator (q :: rest).
Proof. reflexivity. Qed.

(** A record written as a line is read back as the record. *)
Lemma readCSVFrom_row row : forall record records,
  row <> [] ->
  Readers.readCSVFrom Readers.FieldStart [] record records
    (TableUtils.join [TableUtils.comma] (map TableUtils.escapeCSV row))
  = records ++ [record ++ row]
  /\ forall rest,
       Readers.readCSVFrom Readers.FieldStart [] record records
         (TableUtils.join [TableUtils.comma] (map TableUtils.escapeCSV row)
          ++ TableUtils.lineFeed :: rest)
       = Readers.readCSVFrom Readers.FieldStart [] [] (records ++ [record ++ row]) rest.
Proof.
  induction row as [|value row IH]; intros record records Hrow; [congruence|].
  destruct row as [|value' row].
  - cbn [map TableUtils.join]. split.
    + destruct (@readCSVFrom_escapeCSV value record records []) as (state & Hstate & E);
        [now left|].
      rewrite app_nil_r in E. rewrite E. apply readCSVFrom_end.
    + intros rest.
      destruct (@readCSVFrom_escapeCSV value record records (TableUtils.lineFeed :: rest))
        as (state & Hstate & E); [right; eauto|].
      rewrite E. now apply readCSVFrom_lineFeed.
  - assert (value' :: row <> []) as Hne by discriminate.
    cbn [map]. rewrite join_cons2. cbn [app].
    destruct (IH (record ++ [value]) records Hne) as [IHend IHline].
    cbn [map] in IHend, IHline.
    rewrite <- app_assoc in IHend. cbn [app] in IHend.
    split.
    + destruct (@readCSVFrom_escapeCSV value record records
                  (TableUtils.comma
                   :: TableUtils.join [TableUtils.comma]
                        (TableUtils.escapeCSV value' :: map TableUtils.escapeCSV row)))
        as (state & Hstate & E); [right; eauto|].
      rewrite E, readCSVFrom_comma by assumption. exact IHend.
    + intros rest. rewrite <- app_assoc. cbn [app].
      destruct (@readCSVFrom_escapeCSV value record records
                  (TableUtils.comma
                   :: TableUtils.join [TableUtils.comma]
                        (TableUtils.escapeCSV value' :: map TableUtils.escapeCSV row)
                      ++ TableUtils.lineFeed :: rest))
        as (state & Hstate & E); [right; eauto|].
      rewrite E, readCSVFrom_comma by assumption. rewrite IHline.
      now rewrite <- app_assoc.
Qed.

(** The lines of several records are read back as the records. *)
Lemma readCSVFrom_lines lines : forall records,
  lines <> [] -> Forall (fun row => row <> []) lines ->
  Readers.readCSVFrom Readers.FieldStart [] [] records
    (TableUtils.join [TableUtils.lineFeed]
       (map (fun row => TableUtils.join [TableUtils.comma] (map TableUtils.escapeCSV row))
            lines))
  = records ++ lines.
Proof.
  induction lines as [|row lines IH]; intros records Hne Hrows; [congruence|].
  inversion Hrows as [|? ? Hrow Hrows']; subst.
  destruct lines as [|row' lines].
  - cbn [map TableUtils.join]. now rewrite (proj1 (@readCSVFrom_row row [] records Hrow)).
  - cbn [map]. rewrite join_cons2. cbn [app].
    rewrite (proj2 (@readCSVFrom_row row [] records Hrow)). cbn [app].
    cbn [map] in IH. rewrite IH by (assumption || discriminate).
    now rewrite <- app_assoc.
Qed.

(** X18: the text that [tableDataToCSV] writes reads back as the table: a
    reader of comma-separated values (fields plain or quoted with doubled
    quotes, records ended by line feeds) returns the header row, when
    there is one, followed by the rows, whatever commas, quotes and line
    feeds the cells hold.  The table has at least one line and no row
    without cells. *)
Theorem X18_csv_round_trip :
  forall data : TableUtils.TableData,
    Forall (fun row => row <> []) (TableUtils.rows data) ->
    TableUtils.headers data <> [] \/ TableUtils.rows data <> [] ->
    Readers.readCSV (TableUtils.tableDataToCSV data)
    = match TableUtils.headers data with
      | [] => TableUtils.rows data
      | _ :: _ => TableUtils.headers data :: TableUtils.rows data
      end.
Proof.
  intros [headers rows] Hrows Hlines. cbn [TableUtils.headers TableUtils.rows] in *.
  unfold Readers.readCSV, TableUtils.tableDataToCSV.
  cbn [TableUtils.headers TableUtils.rows].
  destruct headers as [|header headers].
  - cbn [List.length Nat.ltb Nat.leb app].
    rewrite readCSVFrom_lines; [reflexivity| |assumption].
    destruct Hlines as [H|H]; [congruence|assumption].
  - change (0 <? List.length (header :: headers))%nat with true. cbv iota.
    change ([TableUtils.join [TableUtils.comma]
               (map TableUtils.escapeCSV (header :: headers))]
            ++ map (fun row => TableUtils.join [TableUtils.comma]
                                 (map TableUtils.escapeCSV row)) rows)
      with (map (fun row => TableUtils.join [TableUtils.comma]
                              (map TableUtils.escapeCSV row))
                ((header :: headers) :: rows)).
    rewrite readCSVFrom_lines; [reflexivity|discriminate|].
    constructor; [discriminate|assumption].
Qed.

Lemma X18_witness :
  Readers.readCSV
    (TableUtils.tableDataToCSV
       (TableUtils.mkTableData [js "name"; js "note"]
          [[js "a,b"; TableUtils.quote :: js "hi" ++ [TableUtils.quote]]; [js "x"; []]]))
  = [[js "name"; js "note"]; [js "a,b"; TableUtils.quote :: js "hi" ++ [TableUtils.quote]]; [js "x"; []]].
Proof.
  apply (@X18_csv_round_trip
           (TableUtils.mkTableData [js "name"; js "note"]
              [[js "a,b"; TableUtils.quote :: js "hi" ++ [TableUtils.quote]]; [js "x"; []]])).
  - repeat constructor; discriminate.
  - left. discriminate.
Defined.
